(** * sudoku-checker: rule evaluation over a grid of shared cells

    A shallow embedding of the checker's latest draft (the file that
    defines [Puzzle.setValue] and all sixteen rule classes), with the
    JavaScript heap made explicit: a [Cell] object is a location in a
    store of values, the grid and the rules hold locations, and
    [setValue] writes the store. *)

From Stdlib Require Floats.SpecFloat.
From stdpp Require Import base strings numbers list.

(** ** JavaScript values and operators *)

Module JS.

(** A cell holds [undefined] until it is populated, and a number
    afterwards.  A number is an IEEE 754 binary64 value: [NaN], an
    infinity, or a finite value, which is the integer [number z] or a
    value [fraction negative k e] that is not an integer,
    [(2k + 1) / 2^e] with its sign.  No operator the program uses tells
    [-0] from [0], and both are [number 0].  Every finite value of
    binary64 is of exactly one of these forms, and the arithmetic below
    returns only values of binary64.  An integer of more than 53
    significant bits, such as [2^53 + 1], is not a value of binary64:
    no cell and no clue of a program holds it, and [binary64] below
    tells the values that are. *)
Inductive value : Type :=
| undefined
| NaN
| number (z : Z)
| infinity (negative : bool)
| fraction (negative : bool) (k : N) (e : positive).

#[global] Instance value_eq_dec : EqDecision value.
Proof. solve_decision. Defined.

(** [ToNumber] *)
Definition toNumber (v : value) : value :=
  match v with
  | undefined => NaN
  | _ => v
  end.

(** *** Binary64 arithmetic

    An operation of ECMAScript on finite numbers is the operation on
    the real numbers they stand for, followed by the conversion of the
    real result to binary64, rounding to nearest, ties to even. *)

Definition signed (negative : bool) (n : Z) : Z := if negative then (- n)%Z else n.

(** The real number of a finite value, as the pair [(m, e)] for [m / 2^e] *)
Definition real (v : value) : option (Z * Z) :=
  match v with
  | number z => Some (z, 0%Z)
  | fraction negative k e => Some (signed negative (2 * Z.of_N k + 1), Zpos e)
  | _ => None
  end.

(** The numerator of [m / 2^e] over the denominator [2^E], for [e ≤ E] *)
Definition scale (r : Z * Z) (E : Z) : Z := (r.1 * 2 ^ (E - r.2))%Z.

(** [± p / 2^e] in lowest terms *)
Fixpoint lowest (negative : bool) (p : positive) (e : positive) : value :=
  match p with
  | xO p' =>
      match e with
      | xH => number (signed negative (Zpos p'))
      | _ => lowest negative p' (Pos.pred e)
      end
  | xI p' => fraction negative (Npos p') e
  | xH => fraction negative 0 e
  end.

(** The value that stands for [n / 2^e] *)
Definition make (n e : Z) : value :=
  if (e <=? 0)%Z then number (n * 2 ^ (- e))
  else match n with
       | Z0 => number 0
       | Zpos p => lowest false p (Z.to_pos e)
       | Zneg p => lowest true p (Z.to_pos e)
       end.

(** [a / 2^c] rounded to the nearest integer, ties to even *)
Definition roundTiesToEven (a c : Z) : Z :=
  let q := (a / 2 ^ c)%Z in
  match (a mod 2 ^ c ?= 2 ^ (c - 1))%Z with
  | Lt => q
  | Gt => (q + 1)%Z
  | Eq => if Z.even q then q else (q + 1)%Z
  end.

(** The binary64 value nearest to [m / 2^e]: at most 53 significant
    bits, no bit below [2^-1074], and an infinity from [2^1024] on. *)
Definition F (m e : Z) : value :=
  if (m =? 0)%Z then number 0
  else
    let a := Z.abs m in
    let c := Z.max (Z.log2 a + 1 - 53) (e - 1074) in
    let a' := if (c <=? 0)%Z then a else roundTiesToEven a c in
    let e' := if (c <=? 0)%Z then e else (e - c)%Z in
    if (a' =? 0)%Z then number 0
    else if (1024 <=? Z.log2 a' - e')%Z then infinity (m <? 0)%Z
    else make (signed (m <? 0)%Z a') e'.

(** [a + b] on operands that are not strings *)
Definition add (a b : value) : value :=
  match toNumber a, toNumber b with
  | infinity s, infinity t => if Bool.eqb s t then infinity s else NaN
  | infinity s, (number _ | fraction _ _ _) => infinity s
  | (number _ | fraction _ _ _), infinity t => infinity t
  | x, y =>
      match real x, real y with
      | Some p, Some q => let E := Z.max p.2 q.2 in F (scale p E + scale q E) E
      | _, _ => NaN
      end
  end.

(** [- a] *)
Definition neg (a : value) : value :=
  match toNumber a with
  | number z => number (- z)
  | infinity s => infinity (negb s)
  | fraction s k e => fraction (negb s) k e
  | v => v
  end.

(** [a - b] *)
Definition sub (a b : value) : value := add a (neg b).

Definition is_negative (v : value) : bool :=
  match v with
  | number z => (z <? 0)%Z
  | infinity s | fraction s _ _ => s
  | _ => false
  end.

(** [a * b] *)
Definition mul (a b : value) : value :=
  match toNumber a, toNumber b with
  | infinity s, y | y, infinity s =>
      match y with
      | NaN | undefined | number 0 => NaN
      | _ => infinity (xorb s (is_negative y))
      end
  | x, y =>
      match real x, real y with
      | Some p, Some q => F (p.1 * q.1) (p.2 + q.2)
      | _, _ => NaN
      end
  end.

(** [a % b]: the remainder of the truncating division, which takes the
    sign of the dividend and is exact *)
Definition rem (a b : value) : value :=
  match toNumber a, toNumber b with
  | (number _ | fraction _ _ _) as x, infinity _ => x
  | x, y =>
      match real x, real y with
      | Some p, Some q =>
          let E := Z.max p.2 q.2 in
          if (q.1 =? 0)%Z then NaN else make (Z.rem (scale p E) (scale q E)) E
      | _, _ => NaN
      end
  end.

(** [a < b] *)
Definition lt (a b : value) : bool :=
  match toNumber a, toNumber b with
  | infinity s, infinity t => s && negb t
  | infinity s, (number _ | fraction _ _ _) => s
  | (number _ | fraction _ _ _), infinity t => negb t
  | x, y =>
      match real x, real y with
      | Some p, Some q => let E := Z.max p.2 q.2 in (scale p E <? scale q E)%Z
      | _, _ => false
      end
  end.

(** [a > b] *)
Definition gt (a b : value) : bool := lt b a.

(** [a === b] *)
Definition strict_eq (a b : value) : bool :=
  match a, b with
  | undefined, undefined => true
  | number x, number y => (x =? y)%Z
  | infinity s, infinity t => Bool.eqb s t
  | fraction s k e, fraction t l f => Bool.eqb s t && (k =? l)%N && (e =? f)%positive
  | _, _ => false
  end.

(** [SameValueZero], the equality of [Set] and of [includes] *)
Definition sameValueZero (a b : value) : bool := bool_decide (a = b).

(** [Math.min(a, b)] and [Math.max(a, b)] *)
Definition Math_min (a b : value) : value :=
  match toNumber a, toNumber b with
  | NaN, _ | _, NaN => NaN
  | x, y => if lt y x then y else x
  end.

Definition Math_max (a b : value) : value :=
  match toNumber a, toNumber b with
  | NaN, _ | _, NaN => NaN
  | x, y => if lt x y then y else x
  end.

(** *** Arrays *)

(** [arr[i]]: [undefined] outside the array *)
Definition get (arr : list value) (i : Z) : value :=
  if (i <? 0)%Z then undefined else default undefined (arr !! Z.to_nat i).

(** [arr.every((x, i) => f(x, i))]: stops at the first falsy result *)
Fixpoint every_from {A} (f : A → nat → bool) (i : nat) (arr : list A) : bool :=
  match arr with
  | [] => true
  | x :: arr' => if f x i then every_from f (S i) arr' else false
  end.

Definition every {A} (f : A → nat → bool) (arr : list A) : bool :=
  every_from f 0 arr.

(** [arr.indexOf(x)]: index of the first element [=== x], or [-1] *)
Fixpoint indexOf_from (x : value) (i : Z) (arr : list value) : Z :=
  match arr with
  | [] => (-1)%Z
  | y :: arr' => if strict_eq y x then i else indexOf_from x (i + 1)%Z arr'
  end.

Definition indexOf (x : value) (arr : list value) : Z := indexOf_from x 0%Z arr.

(** [arr.includes(x)] *)
Definition includes (x : value) (arr : list value) : bool :=
  existsb (λ y, sameValueZero y x) arr.

(** Relative index of [slice]: negative counts from the end, and the
    result is clamped to the array. *)
Definition relative (len i : Z) : Z :=
  if (i <? 0)%Z then Z.max (len + i) 0 else Z.min i len.

(** [arr.slice(start, end)] *)
Definition slice {A} (start end_ : Z) (arr : list A) : list A :=
  let len := Z.of_nat (length arr) in
  let k := relative len start in
  let final := relative len end_ in
  take (Z.to_nat (final - k)) (drop (Z.to_nat k) arr).

(** [arr.slice(start)] *)
Definition slice_from {A} (start : Z) (arr : list A) : list A :=
  slice start (Z.of_nat (length arr)) arr.

(** [arr.reduce((acc, x) => f(acc, x), init)] *)
Definition reduce {A B} (f : B → A → B) (init : B) (arr : list A) : B :=
  fold_left f arr init.

(** [new Set(arr).size] *)
Definition Set_size (arr : list value) : nat := length (remove_dups arr).

End JS.

Import JS.

(** ** The store of cells *)

(** A [Cell] object is a location; [h !! l] is its [value] field. *)
Abbreviation loc := nat (only parsing).
Abbreviation heap := (list value) (only parsing).

(** [cell.value].  Every reference the program holds was returned by
    [new Cell()], so the default is never reached from a grid built by
    the [Puzzle] constructor. *)
Definition read (h : heap) (l : loc) : value := default undefined (h !! l).

(** [new Cell()]: a fresh location holding [undefined] *)
Definition new_Cell (h : heap) : loc * heap := (length h, h ++ [undefined]).

(** ** Errors *)

Inductive error : Type :=
| AssertionError (message : string)
| TypeError.

Inductive result (A : Type) : Type :=
| Ok (a : A)
| Throw (e : error).
Arguments Ok {A} a.
Arguments Throw {A} e.

(** [assert.ok(cond, message)] followed by the rest of the constructor *)
Definition assert_ok {A} (cond : bool) (message : string) (k : result A) : result A :=
  if cond then k else Throw (AssertionError message).

(** ** Rules *)

(** The rule classes, each with the arguments its constructor stores.
    [cells] is the private [#cells] list of [RuleBase]; a clone holds
    groups of cells.  The clues, symbols and digits are integers: [z]
    is the number [number z]. *)
Inductive Rule : Type :=
| RuleRegion (cells : list loc)
| RuleOdd (cells : list loc)
| RuleEven (cells : list loc)
| RuleThermometer (cells : list loc)
| RulePalindrome (cells : list loc)
| RuleKillerCage (cells : list loc) (sum : Z)
| RuleLittleKiller (cells : list loc) (sum : Z)
| RuleSandwich (cells : list loc) (minSymbol maxSymbol sum : Z)
| RuleDifference (cells : list loc) (difference : Z)
| RuleRatio (cells : list loc) (ratio : Z)
| RuleClone (cells : list (list loc))
| RuleArrow (cells : list loc)
| RuleBetweenLine (cells : list loc)
| RuleMinimum (cells : list loc)
| RuleMaximum (cells : list loc)
| RuleXV (cells : list loc) (sum : Z)
| RuleQuadruple (cells : list loc) (quadruple : list Z).

#[global] Instance Rule_eq_dec : EqDecision Rule.
Proof. solve_decision. Defined.

(** Every [Cell] a rule holds a reference to *)
Definition referenced (r : Rule) : list loc :=
  match r with
  | RuleClone groups => concat groups
  | RuleRegion cells | RuleOdd cells | RuleEven cells | RuleThermometer cells
  | RulePalindrome cells | RuleArrow cells | RuleBetweenLine cells
  | RuleMinimum cells | RuleMaximum cells
  | RuleKillerCage cells _ | RuleLittleKiller cells _ | RuleDifference cells _
  | RuleRatio cells _ | RuleXV cells _ | RuleQuadruple cells _
  | RuleSandwich cells _ _ _ => cells
  end.

(** *** Constructors with a precondition

    The other classes only call [super(cells)] and store their
    arguments: for them the constructor of [Rule] is the JavaScript
    constructor. *)

(** The earlier drafts of [RuleRegion] take the cells only and accept
    any number of them; this one is given the puzzle size. *)
Definition new_RuleRegion (cells : list loc) (size : nat) : result Rule :=
  assert_ok (length cells =? size)
    "A Region must contain all used symbols once each; to use an Incomplete Region, use a Killer Cage instead"%string
    (Ok (RuleRegion cells)).

Definition new_RuleSandwich (cells : list loc) (minSymbol maxSymbol sum : Z) : result Rule :=
  assert_ok (2 <=? length cells)
    "A sandwich requires at least two cells for the crust, even if the contents are empty"%string
    (Ok (RuleSandwich cells minSymbol maxSymbol sum)).

Definition new_RuleClone (cells : list (list loc)) : result Rule :=
  assert_ok ((1 <? length cells)
             && forallb (λ clone, length clone =? length (default [] (head cells))) cells)
    "A clone is defined as multiple separate groups of cells, all of the same size"%string
    (Ok (RuleClone cells)).

Definition new_RuleBetweenLine (cells : list loc) : result Rule :=
  assert_ok (2 <=? length cells)
    "A between line requires at least two cells for the delimiter circles, line itself is empty"%string
    (Ok (RuleBetweenLine cells)).

Definition new_RuleQuadruple (cells : list loc) (quadruple : list Z) : result Rule :=
  assert_ok ((length cells <=? 4) && (length quadruple <=? length cells))
    "By design, a quadruple can only span up to four cells and cannot contain more digits than it spans cells"%string
    (Ok (RuleQuadruple cells quadruple)).

(** *** Fields *)

(** The property flags of [RuleBase] are [false], [true], or declared
    without a value ([isRelation;] in [RuleThermometer]), which leaves
    them [undefined]. *)
Inductive flag : Type :=
| flag_false
| flag_true
| flag_undefined.

(** [if (f)] *)
Definition truthy (f : flag) : bool :=
  match f with flag_true => true | _ => false end.

(** [f !== false] *)
Definition not_false (f : flag) : bool :=
  match f with flag_false => false | _ => true end.

Definition name (r : Rule) : string :=
  match r with
  | RuleRegion _ => "region"
  | RuleOdd _ => "odd"
  | RuleEven _ => "even"
  | RuleThermometer _ => "thermometer"
  | RulePalindrome _ => "palindrome"
  | RuleKillerCage _ _ => "killer-cage"
  | RuleLittleKiller _ _ => "little-killer"
  | RuleSandwich _ _ _ _ => "sandwich"
  | RuleDifference _ _ => "difference"
  | RuleRatio _ _ => "ratio"
  | RuleClone _ => "clone"
  | RuleArrow _ => "arrow"
  | RuleBetweenLine _ => "between-line"
  | RuleMinimum _ => "minimum"
  | RuleMaximum _ => "maximum"
  | RuleXV _ _ => "xv"
  | RuleQuadruple _ _ => "quadruple"
  end%string.

Definition isUniques (r : Rule) : flag :=
  match r with
  | RuleRegion _ | RuleKillerCage _ _ => flag_true
  | _ => flag_false
  end.

Definition isSum (r : Rule) : flag :=
  match r with
  | RuleOdd _ | RuleEven _ | RuleKillerCage _ _ | RuleLittleKiller _ _
  | RuleArrow _ | RuleXV _ _ => flag_true
  | _ => flag_false
  end.

Definition isRelation (r : Rule) : flag :=
  match r with
  | RuleThermometer _ => flag_undefined
  | RuleDifference _ _ | RuleRatio _ _ => flag_true
  | _ => flag_false
  end.

(** [cellCount] and [cellValues]: the values are read from the store at
    every use. *)
Definition cellCount (cells : list loc) : nat := length cells.

Definition cellValues (h : heap) (cells : list loc) : list value :=
  map (read h) cells.

(** [cellValues] of a clone, whose [#cells] are arrays of cells *)
Definition groupValues (h : heap) (groups : list (list loc)) : list (list value) :=
  map (λ cell, map (read h) cell) groups.

(** The [sum] field: absent, a number, or a function of the total.  The
    function of an arrow reads [this.cellValues] when it is called. *)
Inductive sum_field : Type :=
| sum_undefined
| sum_number (n : Z)
| sum_function (f : value → bool).

Definition sum (h : heap) (r : Rule) : sum_field :=
  match r with
  | RuleOdd _ => sum_function (λ n, strict_eq (rem n (number 2)) (number 1))
  | RuleEven _ => sum_function (λ n, strict_eq (rem n (number 2)) (number 0))
  | RuleKillerCage _ s | RuleLittleKiller _ s | RuleSandwich _ _ _ s | RuleXV _ s =>
      sum_number s
  | RuleArrow cells =>
      sum_function (λ n, strict_eq n (mul (number 2) (get (cellValues h cells) 0)))
  | _ => sum_undefined
  end.

(** The [relation] field; the classes that do not define it never
    enable [isRelation]. *)
Definition relation (r : Rule) : option (value → value → bool) :=
  match r with
  | RuleThermometer _ => Some (λ a b, lt a b)
  | RuleDifference _ difference =>
      Some (λ a b, strict_eq (sub a b) (number difference)
                   || strict_eq (sub b a) (number difference))
  | RuleRatio _ ratio =>
      Some (λ a b, strict_eq (mul a (number ratio)) b
                   || strict_eq (mul b (number ratio)) a)
  | _ => None
  end.

(** *** The checks of [RuleBase] *)

Definition checkUniques (h : heap) (cells : list loc) : bool :=
  Set_size (cellValues h cells) =? cellCount cells.

Definition total (vals : list value) : value :=
  reduce (λ acc cell, add acc cell) (number 0) vals.

Definition checkSum (h : heap) (r : Rule) (cells : list loc) : bool :=
  let sum_ := total (cellValues h cells) in
  match sum h r with
  | sum_function f => f sum_
  | sum_number n => strict_eq sum_ (number n)
  | sum_undefined => strict_eq sum_ undefined
  end.

Definition checkRelation (h : heap) (r : Rule) (cells : list loc) : result bool :=
  match relation r with
  | Some rel =>
      Ok (every (λ value i,
                   (i =? 0) || rel (get (cellValues h cells) (Z.of_nat i - 1)) value)
                (cellValues h cells))
  | None => Throw TypeError
  end.

Definition RuleBase_check (h : heap) (r : Rule) (cells : list loc) : result bool :=
  if truthy (isUniques r) && negb (checkUniques h cells) then Ok false
  else if not_false (isSum r) && negb (checkSum h r cells) then Ok false
  else if not_false (isRelation r) then
    match checkRelation h r cells with
    | Ok ok => if negb ok then Ok false else Ok true
    | Throw e => Throw e
    end
  else Ok true.

(** *** [check], with the overriding classes *)

Definition RulePalindrome_check (h : heap) (cells : list loc) : bool :=
  every (λ value i,
           strict_eq value
             (get (cellValues h cells)
                  (Z.of_nat (length (cellValues h cells)) - 1 - Z.of_nat i)))
        (cellValues h cells).

Definition RuleSandwich_check (h : heap) (cells : list loc)
    (minSymbol maxSymbol sum_ : Z) : bool :=
  let min := indexOf (number minSymbol) (cellValues h cells) in
  let max := indexOf (number maxSymbol) (cellValues h cells) in
  let s := total (slice (Z.min min max + 1) (Z.max min max) (cellValues h cells)) in
  strict_eq s (number sum_).

Definition RuleClone_check (h : heap) (groups : list (list loc)) : bool :=
  every (λ clone _,
           match groupValues h groups with
           | first :: _ => every (λ cell i, strict_eq cell (get first (Z.of_nat i))) clone
           | [] => true
           end)
        (groupValues h groups).

Definition RuleBetweenLine_check (h : heap) (cells : list loc) : bool :=
  let left := get (cellValues h cells) 0 in
  let right := get (cellValues h cells) (Z.of_nat (length (cellValues h cells)) - 1) in
  every (λ cell _, lt (Math_min left right) cell && lt cell (Math_max left right))
        (slice 1 (-1) (cellValues h cells)).

Definition RuleMinimum_check (h : heap) (cells : list loc) : bool :=
  every (λ cell _, lt (get (cellValues h cells) 0) cell)
        (slice_from 1 (cellValues h cells)).

Definition RuleMaximum_check (h : heap) (cells : list loc) : bool :=
  every (λ cell _, gt (get (cellValues h cells) 0) cell)
        (slice_from 1 (cellValues h cells)).

Definition RuleQuadruple_check (h : heap) (cells : list loc) (quadruple : list Z) : bool :=
  every (λ quad _, includes (number quad) (cellValues h cells)) quadruple.

Definition check (h : heap) (r : Rule) : result bool :=
  match r with
  | RulePalindrome cells => Ok (RulePalindrome_check h cells)
  | RuleSandwich cells minSymbol maxSymbol s =>
      Ok (RuleSandwich_check h cells minSymbol maxSymbol s)
  | RuleClone groups => Ok (RuleClone_check h groups)
  | RuleBetweenLine cells => Ok (RuleBetweenLine_check h cells)
  | RuleMinimum cells => Ok (RuleMinimum_check h cells)
  | RuleMaximum cells => Ok (RuleMaximum_check h cells)
  | RuleQuadruple cells quadruple => Ok (RuleQuadruple_check h cells quadruple)
  | RuleRegion cells | RuleOdd cells | RuleEven cells | RuleThermometer cells
  | RuleArrow cells
  | RuleKillerCage cells _ | RuleLittleKiller cells _ | RuleDifference cells _
  | RuleRatio cells _ | RuleXV cells _ => RuleBase_check h r cells
  end.

(** ** The puzzle *)

Record Puzzle : Type := mkPuzzle {
  size : nat;
  grid : list (list loc);
  rules : list Rule
}.

(** [Array.from(Array(n)).map(() => new Cell())] *)
Fixpoint new_row (n : nat) (h : heap) : list loc * heap :=
  match n with
  | 0 => ([], h)
  | S n' =>
      let '(cell, h1) := new_Cell h in
      let '(row, h2) := new_row n' h1 in
      (cell :: row, h2)
  end.

(** [Array.from(Array(n)).map(() => Array.from(Array(size)).map(...))] *)
Fixpoint new_grid (n size : nat) (h : heap) : list (list loc) * heap :=
  match n with
  | 0 => ([], h)
  | S n' =>
      let '(row, h1) := new_row size h in
      let '(rows, h2) := new_grid n' size h1 in
      (row :: rows, h2)
  end.

(** [new Puzzle(size)] *)
Definition new_Puzzle (size : nat) (h : heap) : Puzzle * heap :=
  let '(grid, h') := new_grid size size h in
  ({| size := size; grid := grid; rules := [] |}, h').

Definition addRules (p : Puzzle) (rs : list Rule) : Puzzle :=
  {| size := size p; grid := grid p; rules := rules p ++ rs |}.

(** [this.grid[y][x].value = value]: reading a field of [undefined]
    throws; otherwise the cell is written.  The method assigns neither
    [this.grid] nor any of its rows, so the puzzle comes back as it was. *)
Definition setValue (p : Puzzle) (x y : nat) (v : value) (h : heap)
    : result (Puzzle * heap) :=
  match grid p !! y with
  | None => Throw TypeError
  | Some row =>
      match row !! x with
      | None => Throw TypeError
      | Some cell => Ok (p, <[cell := v]> h)
      end
  end.

(** The [Cell] object at a coordinate *)
Definition cellAt (p : Puzzle) (x y : nat) : option loc :=
  row ← grid p !! y; row !! x.

(** [this.grid[y][x].value], for stating what [setValue] changes *)
Definition getValue (p : Puzzle) (x y : nat) (h : heap) : option value :=
  read h <$> cellAt p x y.

(** *** Evaluation, with what it does on the way

    [Puzzle.check] calls [rule.check] and prints to the console; the
    computation carries the sequence of these events and may throw. *)

Inductive event : Type :=
| Call (rule : Rule)
| ConsoleLog (name : string) (result : bool).

#[global] Instance event_eq_dec : EqDecision event.
Proof. solve_decision. Defined.

Definition M (A : Type) : Type := list event * result A.

#[global] Instance M_ret : MRet M := λ A a, ([], Ok a).

#[global] Instance M_bind : MBind M := λ A B f m,
  match m with
  | (t, Ok a) => let '(t', b) := f a in (t ++ t', b)
  | (t, Throw e) => (t, Throw e)
  end.

Definition call_check (h : heap) (rule : Rule) : M bool := ([Call rule], check h rule).

Definition console_log (name : string) (res : bool) : M unit :=
  ([ConsoleLog name res], Ok tt).

(** [arr.every(f)] for a callback with effects *)
Fixpoint every_M {A} (f : A → M bool) (arr : list A) : M bool :=
  match arr with
  | [] => mret true
  | x :: arr' => b ← f x; if b : bool then every_M f arr' else mret false
  end.

(** The callback of [Puzzle.check]: [rule.check] is called once for the
    console and once more for the result.  The argument [puzzle.grid]
    that the source passes is ignored by every [check]. *)
Definition check_callback (h : heap) (rule : Rule) : M bool :=
  logged ← call_check h rule;
  _ ← console_log (name rule) logged;
  call_check h rule.

(** [Puzzle.check] *)
Definition Puzzle_check (p : Puzzle) (h : heap) : M bool :=
  every_M (check_callback h) (rules p).

(** The rules whose [check] an evaluation called, in order *)
Definition invoked (t : list event) : list Rule :=
  omap (λ e, match e with Call r => Some r | ConsoleLog _ _ => None end) t.

(** What the callback leaves in the trace for a rule with result [b] *)
Definition events (b : bool) (r : Rule) : list event :=
  [Call r; ConsoleLog (name r) b; Call r].

(** ** States a program can reach

    A puzzle is built by its constructor; afterwards rules are added,
    cells are populated through [setValue] or written through a
    reference, and other cells may be created. *)
Inductive reachable : Puzzle → heap → Prop :=
| reach_new size h0 :
    reachable (new_Puzzle size h0).1 (new_Puzzle size h0).2
| reach_addRules p h rs :
    reachable p h → reachable (addRules p rs) h
| reach_setValue p h x y v p' h' :
    reachable p h → setValue p x y v h = Ok (p', h') → reachable p' h'
| reach_write p h cell v :
    reachable p h → reachable p (<[cell := v]> h)
| reach_new_Cell p h :
    reachable p h → reachable p (new_Cell h).2.

(** The grid is a square of distinct, allocated cells. *)
Definition grid_ok (p : Puzzle) (h : heap) : Prop :=
  length (grid p) = size p
  ∧ Forall (λ row, length row = size p) (grid p)
  ∧ NoDup (concat (grid p))
  ∧ Forall (λ cell, cell < length h) (concat (grid p)).

(** ** The arrow rule as the clue reads

    The sum of the arrow-path values equals the circle value. *)
Definition arrow_path_sum (h : heap) (circle : loc) (path : list loc) : bool :=
  strict_eq (total (cellValues h path)) (read h circle).

(** Strictly increasing values *)
Definition increasing (vals : list value) : Prop :=
  ∀ i a b, vals !! i = Some a → vals !! S i = Some b → lt a b = true.

(** Two calls of [rule.check] in a row, with nothing in between *)
Definition check_twice (h : heap) (rule : Rule) : M (bool * bool) :=
  first ← call_check h rule;
  second ← call_check h rule;
  mret (first, second).

(** ** Sample inputs *)

(** One populated cell and two rules over it, the first of which fails *)
Definition sample_heap_even : heap := [number 2].

Definition sample_puzzle_odd_even : Puzzle :=
  addRules (new_Puzzle 1 []).1 [RuleOdd [0]; RuleEven [0]].

(** A line on which the maximum symbol 9 occurs and the minimum symbol
    1 does not *)
Definition sample_heap_479 : heap := [number 4; number 7; number 9].

(** Thermometer paths, and the four cells of a quadruple *)
Definition sample_heap_1569 : heap := [number 1; number 5; number 6; number 9].
Definition sample_heap_1559 : heap := [number 1; number 5; number 5; number 9].
Definition sample_heap_6791 : heap := [number 6; number 7; number 9; number 1].

(** An arrow: circle 9, path 6, 2, 1 *)
Definition sample_heap_9621 : heap := [number 9; number 6; number 2; number 1].

(** Two cells whose sum [2^53 + 1] is not a value of binary64 *)
Definition sample_heap_rounded : heap := [number (2 ^ 53); number 1].

(** An arrow whose path sums to its circle, with a running total above
    [2^53] *)
Definition sample_heap_arrow_rounded : heap :=
  [number (2 ^ 53 - 1); number 1; number 1; number (2 ^ 53 - 3)].

(** ** The rest of the puzzle's methods *)

(** [Puzzle.getValues(...indices)] maps [(x, y) => this.grid[y][x].value]
    over its arguments.  [map] calls back with the element and its
    position, so each argument is the [x] and its position the [y]. *)
Fixpoint getValues_from (p : Puzzle) (h : heap) (y : nat) (indices : list nat)
    : result (list value) :=
  match indices with
  | [] => Ok []
  | x :: indices' =>
      match grid p !! y with
      | None => Throw TypeError
      | Some row =>
          match row !! x with
          | None => Throw TypeError
          | Some cell =>
              match getValues_from p h (S y) indices' with
              | Ok vals => Ok (read h cell :: vals)
              | Throw e => Throw e
              end
          end
      end
  end.

Definition getValues (p : Puzzle) (indices : list nat) (h : heap) : result (list value) :=
  getValues_from p h 0 indices.

(** ** The driver: the regions of a sudoku

    The test at the end of the file builds a puzzle of size 9 and adds a
    row, a column and a box region for every [y]. *)

(** [cells[i][j]].  Reading past the end of [cells] throws; past the end
    of a row the source would push [undefined] and throw at the first
    check of the rule, which the model brings forward. *)
Definition driver_cell (cells : list (list loc)) (i j : nat) : result loc :=
  match cells !! i with
  | None => Throw TypeError
  | Some row =>
      match row !! j with
      | None => Throw TypeError
      | Some cell => Ok cell
      end
  end.

(** The inner loop for one of [row], [col] and [box]: one [push] per [x] *)
Fixpoint driver_push (f : nat → result loc) (xs : list nat) : result (list loc) :=
  match xs with
  | [] => Ok []
  | x :: xs' =>
      match f x with
      | Throw e => Throw e
      | Ok cell =>
          match driver_push f xs' with
          | Throw e => Throw e
          | Ok cells => Ok (cell :: cells)
          end
      end
  end.

Definition driver_row (cells : list (list loc)) (size y : nat) : result (list loc) :=
  driver_push (λ x, driver_cell cells y x) (seq 0 size).

Definition driver_col (cells : list (list loc)) (size y : nat) : result (list loc) :=
  driver_push (λ x, driver_cell cells x y) (seq 0 size).

(** [cells[3 * Math.floor(y / 3) + Math.floor(x / 3)][(3 * y) % 9 + x % 3]] *)
Definition driver_box (cells : list (list loc)) (size y : nat) : result (list loc) :=
  driver_push (λ x, driver_cell cells (3 * (y / 3) + x / 3) ((3 * y) mod 9 + x mod 3))
              (seq 0 size).

(** The three [new RuleRegion(..., puzzle.size)] of one [y] *)
Definition driver_regions (cells : list (list loc)) (size y : nat) : result (list Rule) :=
  match driver_row cells size y, driver_col cells size y, driver_box cells size y with
  | Ok row, Ok col, Ok box =>
      match new_RuleRegion row size, new_RuleRegion col size, new_RuleRegion box size with
      | Ok r1, Ok r2, Ok r3 => Ok [r1; r2; r3]
      | Throw e, _, _ | Ok _, Throw e, _ | Ok _, Ok _, Throw e => Throw e
      end
  | Throw e, _, _ | Ok _, Throw e, _ | Ok _, Ok _, Throw e => Throw e
  end.

(** The outer loop: [puzzle.addRules] for every [y] *)
Fixpoint driver_loop (p : Puzzle) (ys : list nat) : result Puzzle :=
  match ys with
  | [] => Ok p
  | y :: ys' =>
      match driver_regions (grid p) (size p) y with
      | Throw e => Throw e
      | Ok rs => driver_loop (addRules p rs) ys'
      end
  end.

(** [new Puzzle(9)] followed by the loop *)
Definition driver_sudoku : result (Puzzle * heap) :=
  let '(p, h) := new_Puzzle 9 [] in
  match driver_loop p (seq 0 (size p)) with
  | Ok p' => Ok (p', h)
  | Throw e => Throw e
  end.

(** The population loop: [puzzle.setValue(x, y, solution[y][x])] for
    every coordinate of the grid *)
Fixpoint populate_row (p : Puzzle) (y : nat) (xs : list nat) (solution : list (list value))
    (h : heap) : result heap :=
  match xs with
  | [] => Ok h
  | x :: xs' =>
      match solution !! y with
      | None => Throw TypeError
      | Some srow =>
          match setValue p x y (default undefined (srow !! x)) h with
          | Throw e => Throw e
          | Ok (_, h') => populate_row p y xs' solution h'
          end
      end
  end.

Fixpoint populate_rows (p : Puzzle) (ys : list nat) (solution : list (list value))
    (h : heap) : result heap :=
  match ys with
  | [] => Ok h
  | y :: ys' =>
      match populate_row p y (seq 0 (size p)) solution h with
      | Throw e => Throw e
      | Ok h' => populate_rows p ys' solution h'
      end
  end.

Definition populate (p : Puzzle) (solution : list (list value)) (h : heap) : result heap :=
  populate_rows p (seq 0 (size p)) solution h.

(** The value at a coordinate of the driver's grid, whose cell is the
    location [9 * y + x] *)
Definition sudoku_value (h : heap) (x y : nat) : value := read h (9 * y + x).

(** A statement [puzzle.setValue(x, y, v)] run in a state: the error
    it throws, if any, and the state it leaves.  The method throws
    before it writes, so a throw leaves the state as it was. *)
Definition run_setValue (x y : nat) (v : value) (s : Puzzle * heap)
    : option error * (Puzzle * heap) :=
  match setValue s.1 x y v s.2 with
  | Ok s' => (None, s')
  | Throw e => (Some e, s)
  end.

(** [first; second]: the second statement runs when the first did not
    throw, in the state the first left. *)
Definition then_run (first : option error * (Puzzle * heap))
    (second : Puzzle * heap → option error * (Puzzle * heap))
    : option error * (Puzzle * heap) :=
  match first with
  | (None, s) => second s
  | (Some e, s) => (Some e, s)
  end.

(** ** The Standard Library's specification of binary64

    [SpecFloat] gives the operations of IEEE 754 on a sign, a mantissa
    and an exponent; with 53 bits of precision and the exponent bound
    1024 they are those of binary64.  The values above are compared
    with it on a sample. *)

Definition to_SF (v : value) : SpecFloat.spec_float :=
  match v with
  | undefined | NaN => SpecFloat.S754_nan
  | infinity s => SpecFloat.S754_infinity s
  | number z => SpecFloat.binary_normalize 53 1024 z 0 false
  | fraction s k e =>
      SpecFloat.binary_normalize 53 1024 (signed s (2 * Z.of_N k + 1)) (Zneg e) false
  end.

Definition of_SF (f : SpecFloat.spec_float) : value :=
  match f with
  | SpecFloat.S754_nan => NaN
  | SpecFloat.S754_zero _ => number 0
  | SpecFloat.S754_infinity s => infinity s
  | SpecFloat.S754_finite s m e => make (signed s (Zpos m)) (- e)
  end.

(** A value of binary64: the conversion to [SpecFloat] and back does
    not round it. *)
Definition binary64 (v : value) : bool :=
  bool_decide (of_SF (to_SF v) = toNumber v).

(** [a + b], [a - b], [a * b] and [a < b] are what [SpecFloat] gives,
    and the results are values of binary64. *)
Definition agrees_with_SpecFloat (a b : value) : bool :=
  bool_decide (add a b = of_SF (SpecFloat.SFadd 53 1024 (to_SF a) (to_SF b)))
  && bool_decide (sub a b = of_SF (SpecFloat.SFsub 53 1024 (to_SF a) (to_SF b)))
  && bool_decide (mul a b = of_SF (SpecFloat.SFmul 53 1024 (to_SF a) (to_SF b)))
  && bool_decide (lt a b = SpecFloat.SFltb (to_SF a) (to_SF b))
  && binary64 (add a b) && binary64 (sub a b) && binary64 (mul a b).

Definition binary64_samples : list value :=
  [ number 0; number 1; number (-1); number 3; number 9;
    number (2 ^ 53); number (2 ^ 53 - 1); number (2 ^ 53 - 3); number (- 2 ^ 53);
    number (2 ^ 54); number 3002399751580331; number (2 ^ 1024 - 2 ^ 971);
    fraction false 0 1; fraction false 2 1; fraction true 1 2;
    fraction false 0 1074; fraction false (Z.to_N (2 ^ 52 - 1)) 53;
    infinity false; infinity true; NaN; undefined ].

(** ** Integers on which the arithmetic is exact *)

(** The integers of magnitude up to [2^53] are values of binary64. *)
Definition safe (z : Z) : Prop := (Z.abs z ≤ 2 ^ 53)%Z.

(** Every running total of [zs] added to [a], one element at a time as
    [reduce] does, is safe. *)
Fixpoint safe_sums (a : Z) (zs : list Z) : Prop :=
  match zs with
  | [] => True
  | z :: zs' => safe (a + z) ∧ safe_sums (a + z) zs'
  end.

(** [solution[y][x]] for a row [y] that exists *)
Definition solution_at (solution : list (list value)) (x y : nat) : value :=
  match solution !! y with
  | Some srow => default undefined (srow !! x)
  | None => undefined
  end.

(** The lines of a sudoku as lists of coordinates [(x, y)]: rows,
    columns, and the nine 3 by 3 boxes *)
Definition sudoku_rows : list (list (nat * nat)) :=
  (λ y, (λ x, (x, y)) <$> seq 0 9) <$> seq 0 9.

Definition sudoku_cols : list (list (nat * nat)) :=
  (λ x, (λ y, (x, y)) <$> seq 0 9) <$> seq 0 9.

Definition sudoku_boxes : list (list (nat * nat)) :=
  (λ b, (λ k, (3 * (b mod 3) + k mod 3, 3 * (b / 3) + k / 3)) <$> seq 0 9) <$> seq 0 9.

(** A line holds pairwise distinct values *)
Definition distinct_on (val : nat → nat → value) (line : list (nat * nat)) : Prop :=
  NoDup ((λ c, val c.1 c.2) <$> line).

(** The solution that the driver populates the grid with *)
Definition sample_solution : list (list value) :=
  map (map number)
  [ [1; 2; 3; 4; 5; 6; 7; 8; 9];
    [4; 5; 6; 7; 8; 9; 1; 2; 3];
    [7; 8; 9; 1; 2; 3; 4; 5; 6];
    [2; 3; 4; 5; 6; 7; 8; 9; 1];
    [5; 6; 7; 8; 9; 1; 2; 3; 4];
    [8; 9; 1; 2; 3; 4; 5; 6; 7];
    [3; 4; 5; 6; 7; 8; 9; 1; 2];
    [6; 7; 8; 9; 1; 2; 3; 4; 5];
    [9; 1; 2; 3; 4; 5; 6; 7; 8] ]%Z.

(** * The first draft

    In the first draft a rule holds coordinates [[x, y]] instead of
    cells, and reads the values from the array [solution] of the
    module.  The methods take a [solution] argument as well, which
    [forEachCell] does not use. *)

Module Draft.

Inductive Rule : Type :=
| RuleRegion (cells : list (nat * nat))
| RuleOdd (cells : list (nat * nat))
| RuleEven (cells : list (nat * nat))
| RuleThermometer (cells : list (nat * nat))
| RulePalindrome (cells : list (nat * nat))
| RuleKillerCage (cells : list (nat * nat)) (sum : Z).

Definition cells (r : Rule) : list (nat * nat) :=
  match r with
  | RuleRegion cells | RuleOdd cells | RuleEven cells | RuleThermometer cells
  | RulePalindrome cells | RuleKillerCage cells _ => cells
  end.

Definition cellCount (r : Rule) : nat := length (cells r).

Definition uniques (r : Rule) : bool :=
  match r with
  | RuleRegion _ | RuleKillerCage _ _ => true
  | _ => false
  end.

(** The [sum] property: [false], a number, or a function of the sum *)
Inductive sum_field : Type :=
| sum_false
| sum_number (n : Z)
| sum_function (f : value → bool).

Definition sum (r : Rule) : sum_field :=
  match r with
  | RuleOdd _ => sum_function (λ n, strict_eq (rem n (number 2)) (number 1))
  | RuleEven _ => sum_function (λ n, strict_eq (rem n (number 2)) (number 0))
  | RuleKillerCage _ s => sum_number s
  | _ => sum_false
  end.

(** [forEachCell(callback)]: for every [[x, y]] in order, [callback]
    on [solution[y][x]].  A row outside the array makes the read throw;
    a column outside the row reads [undefined].  The callbacks of the
    source update a variable of the caller, here the state [s]. *)
Fixpoint forEachCell {S} (solution : list (list value)) (cells : list (nat * nat))
    (callback : S → value → S) (s : S) : result S :=
  match cells with
  | [] => Ok s
  | (x, y) :: cells' =>
      match solution !! y with
      | None => Throw TypeError
      | Some row =>
          forEachCell solution cells' callback (callback s (default undefined (row !! x)))
      end
  end.

(** [values.add(cell)] on a [Set], kept in insertion order *)
Definition Set_add (values : list value) (cell : value) : list value :=
  if decide (cell ∈ values) then values else values ++ [cell].

Definition checkUniques (solution : list (list value)) (r : Rule) : result bool :=
  match forEachCell solution (cells r) Set_add [] with
  | Ok values => Ok (length values =? cellCount r)
  | Throw e => Throw e
  end.

Definition checkSum (solution : list (list value)) (r : Rule) : result bool :=
  match forEachCell solution (cells r) (λ sum_ cell, add sum_ cell) (number 0) with
  | Ok sum_ =>
      Ok match sum r with
         | sum_function f => f sum_
         | sum_number n => strict_eq sum_ (number n)
         | sum_false => false
         end
  | Throw e => Throw e
  end.

Definition RuleBase_check (solution : list (list value)) (r : Rule) : result bool :=
  match (if uniques r then checkUniques solution r else Ok true) with
  | Throw e => Throw e
  | Ok false => Ok false
  | Ok true =>
      match sum r with
      | sum_false => Ok true
      | _ =>
          match checkSum solution r with
          | Throw e => Throw e
          | Ok false => Ok false
          | Ok true => Ok true
          end
      end
  end.

(** [RuleThermometer.check]: the values after a leading [0], each of
    which must be [0] or greater than the one before it *)
Definition RuleThermometer_check (solution : list (list value)) (r : Rule)
    : result bool :=
  match forEachCell solution (cells r) (λ values cell, values ++ [cell]) [number 0] with
  | Ok values =>
      Ok (every (λ value i,
                   strict_eq value (number 0)
                   || lt (get values (Z.of_nat i - 1)) value)
                values)
  | Throw e => Throw e
  end.

(** [rule.check(solution)]; the palindrome of this draft returns [true]
    without reading anything. *)
Definition Rule_check (solution argument : list (list value)) (r : Rule) : result bool :=
  match r with
  | RuleThermometer _ => RuleThermometer_check solution r
  | RulePalindrome _ => Ok true
  | _ => RuleBase_check solution r
  end.

(** [arr.every(f)] for a callback that may throw *)
Fixpoint every_result {A} (f : A → result bool) (arr : list A) : result bool :=
  match arr with
  | [] => Ok true
  | x :: arr' =>
      match f x with
      | Ok true => every_result f arr'
      | Ok false => Ok false
      | Throw e => Throw e
      end
  end.

(** [check(puzzle, solution)], with [rules] for [puzzle.rules] *)
Definition check (solution : list (list value)) (rules : list Rule)
    (argument : list (list value)) : result bool :=
  every_result (λ rule, Rule_check solution argument rule) rules.

(** The values a rule reads, in order *)
Definition values (solution : list (list value)) (cells : list (nat * nat))
    : result (list value) :=
  forEachCell solution cells (λ vals cell, vals ++ [cell]) [].

(** The condition of the draft's thermometer on the values after
    [prev]: each is [0] or greater than the one before it *)
Fixpoint chain (prev : value) (vals : list value) : Prop :=
  match vals with
  | [] => True
  | v :: vals' => (v = number 0 ∨ lt prev v = true) ∧ chain v vals'
  end.

End Draft.

(** * Properties *)

(** ** Arrays and arithmetic *)

Lemma every_from_spec {A} (f : A → nat → bool) (k : nat) (arr : list A) :
  every_from f k arr = true ↔ ∀ i x, arr !! i = Some x → f x (k + i) = true.
Proof.
  revert k; induction arr as [|y arr IH]; intros k; simpl.
  - split; [intros _ i x Hi; by rewrite lookup_nil in Hi | done].
  - destruct (f y k) eqn:Hy.
    + rewrite IH. split.
      * intros H [|i] x Hi; simpl in Hi.
        { injection Hi as <-. by rewrite Nat.add_0_r. }
        replace (k + S i) with (S k + i) by lia. by apply H.
      * intros H i x Hi. replace (S k + i) with (k + S i) by lia. by apply H.
    + split; [done|]. intros H. specialize (H 0 y eq_refl).
      rewrite Nat.add_0_r in H. congruence.
Qed.

Lemma every_spec {A} (f : A → nat → bool) (arr : list A) :
  every f arr = true ↔ ∀ i x, arr !! i = Some x → f x i = true.
Proof. apply every_from_spec. Qed.

Lemma every_from_const {A} (f : A → bool) (k : nat) (arr : list A) :
  every_from (λ x _, f x) k arr = forallb f arr.
Proof.
  revert k; induction arr as [|y arr IH]; intros k; simpl; [done|].
  rewrite IH. by destruct (f y).
Qed.

Lemma get_lookup (arr : list value) (i : nat) (x : value) :
  arr !! i = Some x → get arr (Z.of_nat i) = x.
Proof.
  intros Hi. unfold get.
  destruct (Z.ltb_spec (Z.of_nat i) 0); [lia|]. by rewrite Nat2Z.id, Hi.
Qed.

Lemma strict_eq_number (v : value) (z : Z) :
  strict_eq v (number z) = true ↔ v = number z.
Proof.
  destruct v as [| |x| |]; simpl; try (split; [done|congruence]).
  rewrite Z.eqb_eq. split; congruence.
Qed.

Lemma includes_spec (x : value) (arr : list value) :
  includes x arr = true ↔ x ∈ arr.
Proof.
  unfold includes, sameValueZero. induction arr as [|y arr IH]; simpl.
  - split; [done | by intros ?%elem_of_nil].
  - rewrite elem_of_cons, orb_true_iff, IH, bool_decide_eq_true.
    split; (intros [->|?]; [by left | by right]).
Qed.

Lemma indexOf_from_absent (z : Z) (k : Z) (arr : list value) :
  number z ∉ arr → indexOf_from (number z) k arr = (-1)%Z.
Proof.
  revert k; induction arr as [|y arr IH]; intros k Hn; simpl; [done|].
  apply not_elem_of_cons in Hn as [Hy Hn].
  destruct (strict_eq y (number z)) eqn:E.
  - apply strict_eq_number in E. congruence.
  - by apply IH.
Qed.

(** When the symbol occurs, [indexOf] is the index of its first
    occurrence. *)
Lemma indexOf_from_present (z : Z) (k : Z) (arr : list value) :
  number z ∈ arr →
  ∃ j : nat, indexOf_from (number z) k arr = (k + Z.of_nat j)%Z
             ∧ arr !! j = Some (number z)
             ∧ ∀ i, i < j → arr !! i ≠ Some (number z).
Proof.
  revert k; induction arr as [|y arr IH]; intros k Hin; simpl.
  - by apply elem_of_nil in Hin.
  - destruct (strict_eq y (number z)) eqn:E.
    + apply strict_eq_number in E as ->. exists 0. split_and!; [lia|done|lia].
    + apply elem_of_cons in Hin as [<-|Hin].
      { simpl in E. by rewrite Z.eqb_refl in E. }
      destruct (IH (k + 1)%Z Hin) as (j & Hj & Hl & Hfirst).
      exists (S j). split_and!; [lia|done|].
      intros [|i] Hi; simpl.
      * intros [= ->]. simpl in E. by rewrite Z.eqb_refl in E.
      * apply Hfirst. lia.
Qed.

Lemma add_toNumber_l (a b : value) : add (toNumber a) b = add a b.
Proof. by destruct a. Qed.

Lemma fold_add_NaN (vals : list value) : fold_left (λ acc cell, add acc cell) vals NaN = NaN.
Proof. induction vals as [|v vals IH]; simpl; [done|]. by destruct v. Qed.

Lemma add_NaN_r (a b : value) : toNumber b = NaN → add a b = NaN.
Proof. intros Hb. unfold add. rewrite Hb. by destruct (toNumber a). Qed.

(** Undefined and [NaN] poison a total. *)
Lemma fold_add_poison (vals : list value) (acc : value) :
  undefined ∈ vals ∨ NaN ∈ vals →
  fold_left (λ acc cell, add acc cell) vals acc = NaN.
Proof.
  revert acc; induction vals as [|v vals IH]; intros acc Hin.
  - destruct Hin as [Hin|Hin]; by apply elem_of_nil in Hin.
  - simpl. destruct (decide (toNumber v = NaN)) as [Hv|Hv].
    + by rewrite (add_NaN_r _ _ Hv), fold_add_NaN.
    + apply IH. destruct Hin as [[<-|?]%elem_of_cons|[<-|?]%elem_of_cons];
        by auto.
Qed.

Lemma lt_number (a b : Z) : lt (number a) (number b) = true ↔ (a < b)%Z.
Proof. unfold lt, scale. simpl. rewrite !Z.mul_1_r. apply Z.ltb_lt. Qed.

Lemma signed_mul (s : bool) (x y : Z) : (signed s x * y = signed s (x * y))%Z.
Proof. destruct s; simpl; lia. Qed.

Lemma signed_abs (z : Z) : signed (z <? 0)%Z (Z.abs z) = z.
Proof. destruct (Z.ltb_spec z 0); simpl; lia. Qed.

(** The conversion to binary64 is exact on an integer of at most 53
    significant bits times a power of two, below [2^1024]. *)
Lemma F_exact_scaled (z k : Z) :
  (0 ≤ k)%Z → z ≠ 0%Z → (Z.log2 (Z.abs z) < 53)%Z → (Z.log2 (Z.abs z) + k < 1024)%Z →
  F (z * 2 ^ k) 0 = number (z * 2 ^ k).
Proof.
  intros Hk Hz Hbits Hmax.
  assert (0 < 2 ^ k)%Z as Hpow by (apply Z.pow_pos_nonneg; lia).
  assert (0 < Z.abs z)%Z as Ha by lia.
  assert (Z.abs (z * 2 ^ k) = Z.abs z * 2 ^ k)%Z as Habs
    by (rewrite Z.abs_mul, (Z.abs_eq (2 ^ k)); lia).
  assert (Z.log2 (Z.abs z * 2 ^ k) = k + Z.log2 (Z.abs z))%Z as Hlog
    by (apply Z.log2_mul_pow2; lia).
  assert ((z * 2 ^ k <? 0) = (z <? 0))%Z as Hsign.
  { destruct (Z.ltb_spec z 0), (Z.ltb_spec (z * 2 ^ k) 0); try done; nia. }
  unfold F. destruct (Z.eqb_spec (z * 2 ^ k) 0) as [H0|_]; [nia|].
  rewrite Habs, Hlog, Hsign.
  set (c := Z.max (k + Z.log2 (Z.abs z) + 1 - 53) (0 - 1074)).
  assert (c ≤ k)%Z as Hck by (unfold c; lia).
  destruct (Z.leb_spec c 0) as [Hc|Hc].
  - destruct (Z.eqb_spec (Z.abs z * 2 ^ k) 0) as [H0|_]; [nia|].
    rewrite Hlog. destruct (Z.leb_spec 1024 (k + Z.log2 (Z.abs z) - 0)); [lia|].
    unfold make. simpl. rewrite Z.mul_1_r, <- signed_mul, signed_abs. done.
  - assert (Z.abs z * 2 ^ k = Z.abs z * 2 ^ (k - c) * 2 ^ c)%Z as Hsplit.
    { rewrite <- Z.mul_assoc, <- Z.pow_add_r by lia. do 2 f_equal. lia. }
    assert (0 < 2 ^ c)%Z as Hpc by (apply Z.pow_pos_nonneg; lia).
    assert (0 < 2 ^ (k - c))%Z as Hpkc by (apply Z.pow_pos_nonneg; lia).
    assert (roundTiesToEven (Z.abs z * 2 ^ k) c = Z.abs z * 2 ^ (k - c))%Z as ->.
    { unfold roundTiesToEven. rewrite Hsplit, Z.div_mul, Z.mod_mul by lia.
      assert (0 < 2 ^ (c - 1))%Z by (apply Z.pow_pos_nonneg; lia).
      by destruct (Z.compare_spec 0 (2 ^ (c - 1))); [lia| |lia]. }
    destruct (Z.eqb_spec (Z.abs z * 2 ^ (k - c)) 0) as [H0|_]; [nia|].
    rewrite Z.log2_mul_pow2 by lia.
    destruct (Z.leb_spec 1024 (k - c + Z.log2 (Z.abs z) - (0 - c))); [lia|].
    unfold make. destruct (Z.leb_spec (0 - c) 0); [|lia].
    f_equal. replace (- (0 - c))%Z with c by lia.
    rewrite signed_mul, <- Hsplit, <- signed_mul, signed_abs. done.
Qed.

(** A safe integer is a value of binary64, and so is its double. *)
Lemma F_exact (z : Z) : safe z → F z 0 = number z.
Proof.
  unfold safe. intros Hs. destruct (Z.eq_dec z 0%Z) as [->|Hz]; [done|].
  destruct (Z.eq_dec (Z.abs z) (2 ^ 53)%Z) as [He|Hne].
  - assert (z = 2 ^ 53 ∨ z = - 2 ^ 53)%Z as [->| ->] by lia; by vm_compute.
  - assert (Z.log2 (Z.abs z) < 53)%Z as Hbits by (apply Z.log2_lt_pow2; lia).
    pose proof (F_exact_scaled z 0) as H.
    rewrite Z.pow_0_r, Z.mul_1_r in H. apply H; [lia|done|done|lia].
Qed.

Lemma F_exact_double (z : Z) : safe z → F (2 * z) 0 = number (2 * z).
Proof.
  unfold safe. intros Hs. destruct (Z.eq_dec z 0%Z) as [->|Hz]; [done|].
  destruct (Z.eq_dec (Z.abs z) (2 ^ 53)%Z) as [He|Hne].
  - assert (z = 2 ^ 53 ∨ z = - 2 ^ 53)%Z as [->| ->] by lia; by vm_compute.
  - assert (Z.log2 (Z.abs z) < 53)%Z as Hbits by (apply Z.log2_lt_pow2; lia).
    pose proof (F_exact_scaled z 1) as H.
    rewrite Z.pow_1_r, (Z.mul_comm z 2) in H. apply H; [lia|done|done|lia].
Qed.

(** On the sample, which holds the largest finite value, the smallest
    positive one, integers around [2^53] and fractions, the operations
    agree with the Standard Library's specification of binary64. *)
Lemma binary64_samples_agree :
  forallb binary64 binary64_samples = true
  ∧ forallb (λ a, forallb (agrees_with_SpecFloat a) binary64_samples)
            binary64_samples = true.
Proof. split; by vm_compute. Qed.

Lemma add_number (a b : Z) : add (number a) (number b) = F (a + b) 0.
Proof. unfold add, scale. simpl. by rewrite !Z.mul_1_r. Qed.

Lemma sub_number (a b : Z) : sub (number a) (number b) = F (a - b) 0.
Proof.
  unfold sub. change (neg (number b)) with (number (- b)).
  by rewrite add_number, Z.add_opp_r.
Qed.

Lemma mul_number (a b : Z) : mul (number a) (number b) = F (a * b) 0.
Proof. done. Qed.

Lemma fold_add_safe (zs : list Z) :
  ∀ a, safe_sums a zs →
       fold_left (λ acc cell, add acc cell) (number <$> zs) (number a)
       = number (a + foldr Z.add 0%Z zs).
Proof.
  induction zs as [|z zs IH]; intros a Hs.
  - simpl. f_equal; lia.
  - destruct Hs as [Hz Hs]. rewrite fmap_cons. cbn [fold_left foldr].
    rewrite add_number, (F_exact _ Hz), (IH _ Hs). f_equal; lia.
Qed.

(** When every running total is a safe integer, the total of integers
    is their sum. *)
Lemma total_safe (zs : list Z) :
  safe_sums 0 zs → total (number <$> zs) = number (foldr Z.add 0%Z zs).
Proof. intros Hs. unfold total, reduce. by rewrite (fold_add_safe _ _ Hs). Qed.

Lemma cellValues_ext (h1 h2 : heap) (cells : list loc) :
  (∀ l, l ∈ cells → read h1 l = read h2 l) →
  cellValues h1 cells = cellValues h2 cells.
Proof.
  intros H. unfold cellValues. apply map_ext_in.
  intros l Hl. apply H. by apply list_elem_of_In.
Qed.

Lemma groupValues_ext (h1 h2 : heap) (groups : list (list loc)) :
  (∀ l, l ∈ concat groups → read h1 l = read h2 l) →
  groupValues h1 groups = groupValues h2 groups.
Proof.
  intros H. unfold groupValues. apply map_ext_in.
  intros g Hg. apply (cellValues_ext h1 h2 g).
  intros l Hl. apply H. apply list_elem_of_In, in_concat. exists g.
  split; [done | by apply list_elem_of_In].
Qed.

(** ** Rules return a Boolean *)

Lemma check_total (h : heap) (r : Rule) : ∃ b, check h r = Ok b.
Proof.
  destruct r; simpl; try by eexists.
  all: unfold RuleBase_check, checkRelation; simpl;
    repeat match goal with
           | |- context [if ?c then _ else _] => destruct c
           end; by eexists.
Qed.

(** ** Evaluation of a puzzle *)

Lemma check_callback_eq (h : heap) (r : Rule) (b : bool) :
  check h r = Ok b → check_callback h r = (events b r, Ok b).
Proof.
  intros H. unfold check_callback, call_check, console_log, mbind, M_bind.
  by rewrite H.
Qed.

Lemma every_M_pass (h : heap) (r : Rule) (rs : list Rule) :
  check h r = Ok true →
  every_M (check_callback h) (r :: rs)
  = (events true r ++ (every_M (check_callback h) rs).1,
     (every_M (check_callback h) rs).2).
Proof.
  intros H. simpl. rewrite (check_callback_eq _ _ _ H).
  unfold mbind, M_bind. by destruct (every_M (check_callback h) rs).
Qed.

Lemma every_M_fail (h : heap) (r : Rule) (rs : list Rule) :
  check h r = Ok false →
  every_M (check_callback h) (r :: rs) = (events false r, Ok false).
Proof.
  intros H. simpl. by rewrite (check_callback_eq _ _ _ H).
Qed.

(** C1. [Puzzle.check] returns a Boolean, and it returns [true] exactly
    when the [check] of every registered rule returns [true]: the
    result is the conjunction over all rules. *)
Theorem Puzzle_check_conjunction (p : Puzzle) (h : heap) :
  (∃ b, (Puzzle_check p h).2 = Ok b)
  ∧ ((Puzzle_check p h).2 = Ok true ↔ ∀ r, r ∈ rules p → check h r = Ok true).
Proof.
  unfold Puzzle_check. induction (rules p) as [|r rs [[b IHb] IH]].
  - split; [by exists true|]. split; [|done].
    intros _ r Hr. by apply elem_of_nil in Hr.
  - destruct (check_total h r) as [[] Hr].
    + rewrite (every_M_pass _ _ _ Hr); simpl. split; [by exists b|].
      rewrite IH. split.
      * intros H r' [->|Hin]%elem_of_cons; auto.
      * intros H r' Hin. apply H. by right.
    + rewrite (every_M_fail _ _ _ Hr); simpl. split; [by exists false|].
      split; [done|]. intros H. specialize (H r (list_elem_of_here _ _)).
      congruence.
Qed.

(** C2, as the code has it.  [every] stops at the first rule whose
    [check] returns [false]: the rules before it and that rule are
    called, each twice, the rules after it are not called and nothing is
    printed for them.  When no rule fails, every rule is called. *)
Theorem Puzzle_check_stops_at_first_failure (p : Puzzle) (h : heap) :
  (∀ pre r post,
     rules p = pre ++ r :: post →
     Forall (λ r', check h r' = Ok true) pre →
     check h r = Ok false →
     Puzzle_check p h = (concat (events true <$> pre) ++ events false r, Ok false)
     ∧ invoked (Puzzle_check p h).1 = concat ((λ r', [r'; r']) <$> pre ++ [r]))
  ∧ (Forall (λ r', check h r' = Ok true) (rules p) →
     Puzzle_check p h = (concat (events true <$> rules p), Ok true)
     ∧ invoked (Puzzle_check p h).1 = concat ((λ r', [r'; r']) <$> rules p)).
Proof.
  unfold Puzzle_check. split.
  - intros pre r post -> Hpre Hr.
    induction Hpre as [|r' pre Hr' _ [IH1 IH2]]; simpl app.
    + rewrite (every_M_fail _ _ _ Hr). done.
    + rewrite (every_M_pass _ _ _ Hr'), IH1. split; [done|].
      rewrite IH1 in IH2. simpl in *. by rewrite IH2.
  - induction 1 as [|r rs Hr _ [IH1 IH2]]; [done|].
    rewrite (every_M_pass _ _ _ Hr), IH1. split; [done|].
    rewrite IH1 in IH2. simpl in *. by rewrite IH2.
Qed.

Lemma Puzzle_check_stops_at_first_failure_witness :
  Puzzle_check sample_puzzle_odd_even sample_heap_even
  = (events false (RuleOdd [0]), Ok false)
  ∧ invoked (Puzzle_check sample_puzzle_odd_even sample_heap_even).1
    = [RuleOdd [0]; RuleOdd [0]].
Proof.
  apply (proj1 (Puzzle_check_stops_at_first_failure
                  sample_puzzle_odd_even sample_heap_even)
           [] (RuleOdd [0]) [RuleEven [0]]).
  - reflexivity.
  - constructor.
  - reflexivity.
Defined.

(** C2 as stated fails: with a failing rule registered first, the
    second rule is registered but its [check] is never called. *)
Lemma Puzzle_check_skips_later_rules :
  RuleEven [0] ∈ rules sample_puzzle_odd_even
  ∧ check sample_heap_even (RuleOdd [0]) = Ok false
  ∧ Call (RuleEven [0]) ∉ (Puzzle_check sample_puzzle_odd_even sample_heap_even).1.
Proof.
  split_and!.
  - apply list_elem_of_In. vm_compute. auto.
  - reflexivity.
  - intros H. apply list_elem_of_In in H. vm_compute in H.
    repeat destruct H as [H|H]; try discriminate H. exact H.
Qed.

(** ** Sandwich *)

Lemma slice_prefix {A} (j : nat) (arr : list A) :
  j ≤ length arr → slice 0 (Z.of_nat j) arr = take j arr.
Proof.
  intros Hj. unfold slice, relative.
  destruct (Z.ltb_spec 0 0); [lia|].
  destruct (Z.ltb_spec (Z.of_nat j) 0); [lia|].
  rewrite Z.min_l, Z.min_l by lia. simpl.
  by rewrite Z.sub_0_r, Nat2Z.id.
Qed.

Lemma slice_all_but_last {A} (arr : list A) :
  slice 0 (-1) arr = take (length arr - 1) arr.
Proof.
  unfold slice, relative.
  destruct (Z.ltb_spec 0 0); [lia|].
  destruct (Z.ltb_spec (-1) 0); [|lia].
  rewrite Z.min_l by lia. simpl. f_equal. lia.
Qed.

(** C3, as the code has it.  A sandwich whose sentinel is absent does
    not throw; [indexOf] gives [-1] for the absent symbol, and the rule
    compares its target with the total of the values before the first
    occurrence of the sentinel that is present, or, when both are
    absent, with the total of all values but the last.  The total is
    the binary64 sum accumulated from 0 in the order of the line. *)
Theorem RuleSandwich_check_absent_sentinel
    (h : heap) (cells : list loc) (minSymbol maxSymbol s : Z) :
  let vals := cellValues h cells in
  let before (x : Z) := take (Z.to_nat (indexOf (number x) vals)) vals in
  (number minSymbol ∉ vals → number maxSymbol ∈ vals →
   check h (RuleSandwich cells minSymbol maxSymbol s)
   = Ok (strict_eq (total (before maxSymbol)) (number s)))
  ∧ (number minSymbol ∈ vals → number maxSymbol ∉ vals →
     check h (RuleSandwich cells minSymbol maxSymbol s)
     = Ok (strict_eq (total (before minSymbol)) (number s)))
  ∧ (number minSymbol ∉ vals → number maxSymbol ∉ vals →
     check h (RuleSandwich cells minSymbol maxSymbol s)
     = Ok (strict_eq (total (take (length vals - 1) vals)) (number s))).
Proof.
  intros vals before. subst before. cbv beta.
  unfold check, RuleSandwich_check, indexOf. fold vals. split_and!.
  - intros Hmin Hmax. rewrite (indexOf_from_absent _ _ _ Hmin).
    destruct (indexOf_from_present _ 0%Z _ Hmax) as (j & -> & Hj & _).
    apply lookup_lt_Some in Hj. rewrite Z.add_0_l.
    replace (Z.min (-1) (Z.of_nat j) + 1)%Z with 0%Z by lia.
    replace (Z.max (-1) (Z.of_nat j))%Z with (Z.of_nat j) by lia.
    rewrite slice_prefix by lia. by rewrite Nat2Z.id.
  - intros Hmin Hmax. rewrite (indexOf_from_absent _ _ _ Hmax).
    destruct (indexOf_from_present _ 0%Z _ Hmin) as (j & -> & Hj & _).
    apply lookup_lt_Some in Hj. rewrite Z.add_0_l.
    replace (Z.min (Z.of_nat j) (-1) + 1)%Z with 0%Z by lia.
    replace (Z.max (Z.of_nat j) (-1))%Z with (Z.of_nat j) by lia.
    rewrite slice_prefix by lia. by rewrite Nat2Z.id.
  - intros Hmin Hmax.
    rewrite (indexOf_from_absent _ _ _ Hmin), (indexOf_from_absent _ _ _ Hmax).
    change (Z.min (-1) (-1) + 1)%Z with 0%Z. change (Z.max (-1) (-1)) with (-1)%Z.
    by rewrite slice_all_but_last.
Qed.

Lemma RuleSandwich_check_absent_sentinel_witness :
  check sample_heap_479 (RuleSandwich [0; 1; 2] 1 9 11)
  = Ok (strict_eq (total [number 4; number 7]) (number 11)).
Proof.
  apply (proj1 (RuleSandwich_check_absent_sentinel
                  sample_heap_479 [0; 1; 2] 1 9 11)).
  - intros H. apply list_elem_of_In in H. vm_compute in H.
    repeat destruct H as [H|H]; try discriminate H. exact H.
  - apply list_elem_of_In. vm_compute. auto.
Defined.

(** C3 as stated fails: the rule is constructed, the minimum symbol 1
    does not occur on the line [4, 7, 9], and [check] returns [true],
    because the values before the 9 sum to the target 11. *)
Lemma RuleSandwich_passes_without_sentinel :
  new_RuleSandwich [0; 1; 2] 1 9 11 = Ok (RuleSandwich [0; 1; 2] 1 9 11)
  ∧ (number 1 ∉ cellValues sample_heap_479 [0; 1; 2])
  ∧ check sample_heap_479 (RuleSandwich [0; 1; 2] 1 9 11) = Ok true.
Proof.
  split_and!; [reflexivity| |reflexivity].
  intros H. apply list_elem_of_In in H. vm_compute in H.
  repeat destruct H as [H|H]; try discriminate H. exact H.
Qed.

(** ** Region *)

(** C4. A region whose number of cells differs from the size it is
    given is rejected by the constructor with an assertion error: no
    rule object comes back, so there is nothing for a later [check] to
    report on.  The constructor reads no cell value. *)
Theorem new_RuleRegion_rejects_wrong_count (cells : list loc) (size : nat) :
  length cells ≠ size →
  (∃ message, new_RuleRegion cells size = Throw (AssertionError message))
  ∧ ∀ r, new_RuleRegion cells size ≠ Ok r.
Proof.
  intros Hlen. unfold new_RuleRegion, assert_ok.
  destruct (Nat.eqb_spec (length cells) size) as [|_]; [done|].
  split; [by eexists | done].
Qed.

Lemma new_RuleRegion_rejects_wrong_count_witness :
  ((∃ message, new_RuleRegion (seq 0 8) 9 = Throw (AssertionError message))
   ∧ ∀ r, new_RuleRegion (seq 0 8) 9 ≠ Ok r)
  ∧ ((∃ message, new_RuleRegion (seq 0 10) 9 = Throw (AssertionError message))
     ∧ ∀ r, new_RuleRegion (seq 0 10) 9 ≠ Ok r).
Proof.
  split.
  - apply (new_RuleRegion_rejects_wrong_count (seq 0 8) 9). simpl. lia.
  - apply (new_RuleRegion_rejects_wrong_count (seq 0 10) 9). simpl. lia.
Defined.

(** ** Between-line *)

(** C10. A between-line of exactly two cells is accepted by the
    constructor, and its [check] returns [true] whatever the two
    delimiter cells hold: [slice(1, -1)] of two values is empty. *)
Theorem RuleBetweenLine_two_cells (h : heap) (c1 c2 : loc) :
  new_RuleBetweenLine [c1; c2] = Ok (RuleBetweenLine [c1; c2])
  ∧ slice 1 (-1) (cellValues h [c1; c2]) = []
  ∧ check h (RuleBetweenLine [c1; c2]) = Ok true.
Proof. split_and!; reflexivity. Qed.

(** ** Thermometer *)

Lemma RuleThermometer_check_eq (h : heap) (cells : list loc) :
  check h (RuleThermometer cells)
  = Ok (every (λ value i,
                 (i =? 0) || lt (get (cellValues h cells) (Z.of_nat i - 1)) value)
              (cellValues h cells)).
Proof.
  unfold check, RuleBase_check, checkRelation. simpl.
  by destruct (every _ _).
Qed.

(** C6. A thermometer passes exactly when each value is less than the
    next one along the path, with [<] as JavaScript has it, which on
    numbers is the order of the integers.  The path 1, 5, 6, 9 passes
    and 1, 5, 5, 9 fails. *)
Theorem RuleThermometer_check_increasing (h : heap) (cells : list loc) :
  (check h (RuleThermometer cells) = Ok true ↔ increasing (cellValues h cells))
  ∧ (check h (RuleThermometer cells) = Ok false ↔ ¬ increasing (cellValues h cells))
  ∧ (∀ a b : Z, lt (number a) (number b) = true ↔ (a < b)%Z)
  ∧ check sample_heap_1569 (RuleThermometer [0; 1; 2; 3]) = Ok true
  ∧ check sample_heap_1559 (RuleThermometer [0; 1; 2; 3]) = Ok false.
Proof.
  assert (Hiff : check h (RuleThermometer cells) = Ok true
                 ↔ increasing (cellValues h cells)).
  { rewrite RuleThermometer_check_eq. unfold increasing.
    set (vals := cellValues h cells).
    split.
    - intros [= H] i a b Ha Hb. rewrite every_spec in H.
      specialize (H (S i) b Hb). simpl in H.
      replace (Z.of_nat (S i) - 1)%Z with (Z.of_nat i) in H by lia.
      by rewrite (get_lookup _ _ _ Ha) in H.
    - intros H. f_equal. apply every_spec. intros [|i] b Hb; [done|]. simpl.
      destruct (lookup_lt_is_Some_2 vals i) as [a Ha].
      { apply lookup_lt_Some in Hb. lia. }
      replace (Z.of_nat (S i) - 1)%Z with (Z.of_nat i) by lia.
      rewrite (get_lookup _ _ _ Ha). by apply (H i). }
  split_and!; [done| |intros a b; apply lt_number|reflexivity|reflexivity].
  rewrite <- Hiff. rewrite RuleThermometer_check_eq.
  destruct (every _ _); split; congruence.
Qed.

(** ** Quadruple *)

(** C7. A quadruple passes exactly when every declared digit is the
    value of some referenced cell.  A digit declared twice asks for
    nothing more than the digit declared once: 6, 6 is accepted by the
    constructor and passes on the cells 6, 7, 9, 1, where a single cell
    holds 6. *)
Theorem RuleQuadruple_check_membership
    (h : heap) (cells : list loc) (quadruple : list Z) :
  (check h (RuleQuadruple cells quadruple) = Ok true
   ↔ ∀ d, d ∈ quadruple → number d ∈ cellValues h cells)
  ∧ (∀ d, check h (RuleQuadruple cells (d :: d :: quadruple))
          = check h (RuleQuadruple cells (d :: quadruple)))
  ∧ new_RuleQuadruple [0; 1; 2; 3] [6; 6]%Z = Ok (RuleQuadruple [0; 1; 2; 3] [6; 6]%Z)
  ∧ check sample_heap_6791 (RuleQuadruple [0; 1; 2; 3] [6; 6]%Z) = Ok true
  ∧ check sample_heap_6791 (RuleQuadruple [0; 1; 2; 3] [9; 6]%Z) = Ok true
  ∧ check sample_heap_6791 (RuleQuadruple [0; 1; 2; 3] [9; 5]%Z) = Ok false.
Proof.
  split_and!; try reflexivity.
  - unfold check, RuleQuadruple_check. split.
    + intros [= H] d [i Hi]%list_elem_of_lookup.
      rewrite every_spec in H. apply includes_spec. by apply (H i).
    + intros H. f_equal. apply every_spec. intros i d Hi.
      apply includes_spec, H. apply list_elem_of_lookup. by exists i.
  - intros d. unfold check, RuleQuadruple_check, every.
    rewrite !every_from_const. cbn [forallb].
    by destruct (includes (number d) (cellValues h cells)).
Qed.

(** ** Arrow *)

Lemma RuleArrow_check_eq (h : heap) (cells : list loc) :
  check h (RuleArrow cells)
  = Ok (strict_eq (total (cellValues h cells))
                  (mul (number 2) (get (cellValues h cells) 0))).
Proof.
  unfold check, RuleBase_check, checkSum. simpl.
  by destruct (strict_eq _ _).
Qed.

(** C5, as the code has it.  The check of an arrow compares the total
    of all its values, the binary64 sum accumulated from 0 in the order
    of the cells, with twice the circle value.  On integer values whose
    running totals, the circle first, stay within [2^53] in magnitude
    the additions are exact, and the check passes exactly when the path
    sums to the circle; when the running totals of the path alone stay
    within that bound too, the check is the comparison of the path total
    with the circle. *)
Theorem RuleArrow_check_path_sum (h : heap) (circle : loc) (path : list loc) :
  check h (RuleArrow (circle :: path))
  = Ok (strict_eq (total (cellValues h (circle :: path)))
                  (mul (number 2) (read h circle)))
  ∧ ∀ (c : Z) (ps : list Z),
      read h circle = number c →
      cellValues h path = number <$> ps →
      safe_sums 0 (c :: ps) →
      (check h (RuleArrow (circle :: path)) = Ok true ↔ foldr Z.add 0%Z ps = c)
      ∧ (safe_sums 0 ps →
         check h (RuleArrow (circle :: path)) = Ok (arrow_path_sum h circle path)).
Proof.
  split; [apply RuleArrow_check_eq|]. intros c ps Hc Hps Hsafe.
  rewrite RuleArrow_check_eq. unfold arrow_path_sum.
  change (get (cellValues h (circle :: path)) 0) with (read h circle).
  change (cellValues h (circle :: path)) with (read h circle :: cellValues h path).
  rewrite Hc, Hps. change (number c :: (number <$> ps)) with (number <$> c :: ps).
  rewrite (total_safe _ Hsafe), mul_number, F_exact_double
    by (destruct Hsafe as [Hs _]; by rewrite Z.add_0_l in Hs).
  cbn [strict_eq foldr]. split.
  - split.
    + intros [= H%Z.eqb_eq]. lia.
    + intros <-. f_equal. apply Z.eqb_eq. lia.
  - intros Hpath. rewrite (total_safe _ Hpath). cbn [strict_eq]. f_equal.
    destruct (Z.eqb_spec (c + foldr Z.add 0 ps) (2 * c))%Z,
             (Z.eqb_spec (foldr Z.add 0%Z ps) c); (done || lia).
Qed.

Lemma RuleArrow_check_path_sum_witness :
  (check sample_heap_9621 (RuleArrow [0; 1; 2; 3]) = Ok true
   ↔ foldr Z.add 0%Z [6; 2; 1]%Z = 9%Z)
  ∧ check sample_heap_9621 (RuleArrow [0; 1; 2; 3])
    = Ok (arrow_path_sum sample_heap_9621 0 [1; 2; 3]).
Proof.
  destruct (proj2 (RuleArrow_check_path_sum sample_heap_9621 0 [1; 2; 3])
              9%Z [6; 2; 1]%Z) as [H1 H2].
  - reflexivity.
  - reflexivity.
  - unfold safe_sums, safe. simpl. lia.
  - split; [exact H1|]. apply H2. unfold safe_sums, safe. simpl. lia.
Defined.

(** C5 as stated fails: the four cells hold integers, the path 1, 1,
    [2^53 - 3] sums to the circle [2^53 - 1], and the check returns
    [false], because the running total [2^53 + 1] is rounded. *)
Lemma RuleArrow_rejects_exact_path_sum :
  cellValues sample_heap_arrow_rounded [0; 1; 2; 3]
  = number <$> [2 ^ 53 - 1; 1; 1; 2 ^ 53 - 3]%Z
  ∧ foldr Z.add 0%Z [1; 1; 2 ^ 53 - 3]%Z = (2 ^ 53 - 1)%Z
  ∧ arrow_path_sum sample_heap_arrow_rounded 0 [1; 2; 3] = true
  ∧ check sample_heap_arrow_rounded (RuleArrow [0; 1; 2; 3]) = Ok false.
Proof. split_and!; by vm_compute. Qed.

(** ** Purity of [check] *)

Ltac unfold_check :=
  unfold check, RuleBase_check, checkUniques, checkSum, checkRelation, sum,
    RulePalindrome_check, RuleSandwich_check, RuleClone_check,
    RuleBetweenLine_check, RuleMinimum_check, RuleMaximum_check,
    RuleQuadruple_check.

Lemma check_agree (r : Rule) (h1 h2 : heap) :
  (∀ l, l ∈ referenced r → read h1 l = read h2 l) → check h1 r = check h2 r.
Proof.
  intros H.
  destruct r; simpl in H; unfold_check;
    first [ by rewrite (groupValues_ext h1 h2 _ H)
          | by rewrite (cellValues_ext h1 h2 _ H) ].
Qed.

(** C8. The result of a rule's [check] is determined by the current
    values of the cells it references: two stores that agree on those
    cells give the same result, whatever else differs.  Two calls in a
    row, with no write in between, return the same Boolean. *)
Theorem check_depends_on_referenced_cells (r : Rule) :
  (∀ h1 h2,
     (∀ l, l ∈ referenced r → read h1 l = read h2 l) →
     check h1 r = check h2 r)
  ∧ ∀ h, ∃ b, check_twice h r = ([Call r; Call r], Ok (b, b)).
Proof.
  split.
  - intros h1 h2. apply check_agree.
  - intros h. destruct (check_total h r) as [b Hb]. exists b.
    unfold check_twice, call_check, mbind, M_bind, mret, M_ret.
    by rewrite Hb.
Qed.

Lemma check_depends_on_referenced_cells_witness :
  check [number 1; number 2; undefined] (RuleKillerCage [0; 1] 3)
  = check [number 1; number 2; number 8; number 9] (RuleKillerCage [0; 1] 3).
Proof.
  apply (proj1 (check_depends_on_referenced_cells (RuleKillerCage [0; 1] 3))).
  intros l Hl. apply list_elem_of_In in Hl. simpl in Hl.
  destruct Hl as [<-|[<-|[]]]; reflexivity.
Defined.

(** ** The grid and [setValue] *)

Lemma new_row_spec (n : nat) (h : heap) :
  new_row n h = (seq (length h) n, h ++ replicate n undefined).
Proof.
  revert h; induction n as [|n IH]; intros h; simpl.
  - by rewrite app_nil_r.
  - rewrite IH, length_app. simpl. rewrite Nat.add_1_r.
    by rewrite <- app_assoc.
Qed.

Lemma new_grid_spec (n size : nat) (h : heap) :
  ∃ g, new_grid n size h = (g, h ++ replicate (n * size) undefined)
       ∧ concat g = seq (length h) (n * size)
       ∧ length g = n
       ∧ Forall (λ row, length row = size) g.
Proof.
  revert h; induction n as [|n IH]; intros h; simpl.
  - exists []. rewrite app_nil_r. by split_and!.
  - rewrite new_row_spec.
    destruct (IH (h ++ replicate size undefined)) as (g & -> & Hc & Hl & Hr).
    exists (seq (length h) size :: g). split_and!.
    + by rewrite replicate_add, app_assoc.
    + simpl. rewrite Hc, length_app, length_replicate. by rewrite seq_app.
    + simpl. by rewrite Hl.
    + constructor; [apply length_seq | done].
Qed.

Lemma new_Puzzle_grid_ok (size : nat) (h0 : heap) :
  grid_ok (new_Puzzle size h0).1 (new_Puzzle size h0).2.
Proof.
  unfold new_Puzzle, grid_ok.
  destruct (new_grid_spec size size h0) as (g & -> & Hc & Hl & Hr). simpl.
  split_and!; [done|done| |].
  - rewrite Hc. apply NoDup_ListNoDup, List.seq_NoDup.
  - rewrite Hc. apply Forall_forall. intros l Hl'.
    apply list_elem_of_In, in_seq in Hl'.
    rewrite length_app, length_replicate. lia.
Qed.

Lemma reachable_grid_ok (p : Puzzle) (h : heap) : reachable p h → grid_ok p h.
Proof.
  induction 1 as [size h0|p h rs _ IH|p h x y v p' h' _ IH Hset|p h cell v _ IH|p h _ IH].
  - apply new_Puzzle_grid_ok.
  - done.
  - unfold setValue in Hset.
    destruct (grid p !! y) as [row|]; [|done].
    destruct (row !! x) as [cell|]; [|done].
    injection Hset as <- <-.
    destruct IH as (?&?&?&Hlt). split_and!; try done.
    eapply Forall_impl; [exact Hlt|]. intros l Hl. by rewrite length_insert.
  - destruct IH as (?&?&?&Hlt). split_and!; try done.
    eapply Forall_impl; [exact Hlt|]. intros l Hl. by rewrite length_insert.
  - destruct IH as (?&?&?&Hlt). split_and!; try done.
    unfold new_Cell. simpl. rewrite length_app. simpl.
    eapply Forall_impl; [exact Hlt|]. simpl. lia.
Qed.

(** Distinct coordinates hold distinct cells. *)
Lemma grid_cells_distinct (g : list (list loc)) (x y x' y' : nat)
    (row row' : list loc) (cell : loc) :
  NoDup (concat g) →
  g !! y = Some row → row !! x = Some cell →
  g !! y' = Some row' → row' !! x' = Some cell →
  x = x' ∧ y = y'.
Proof.
  revert y y'. induction g as [|r g IH]; intros y y' Hnd Hy Hx Hy' Hx'.
  - by rewrite lookup_nil in Hy.
  - simpl in Hnd. apply NoDup_app in Hnd as (Hr & Hdisj & Hg).
    assert (Hin : ∀ k rw i, g !! k = Some rw → rw !! i = Some cell →
                            cell ∈ concat g).
    { intros k rw i Hk Hi. apply list_elem_of_In, in_concat. exists rw.
      split; apply list_elem_of_In; by eapply list_elem_of_lookup_2. }
    destruct y as [|y], y' as [|y']; simpl in Hy, Hy'.
    + injection Hy as ->. injection Hy' as ->.
      split; [|done]. exact (NoDup_lookup _ _ _ _ Hr Hx Hx').
    + injection Hy as ->. exfalso. eapply Hdisj.
      * by eapply list_elem_of_lookup_2.
      * by eapply Hin.
    + injection Hy' as ->. exfalso. eapply Hdisj.
      * by eapply list_elem_of_lookup_2.
      * by eapply Hin.
    + destruct (IH y y' Hg Hy Hx Hy' Hx') as [-> ->]. done.
Qed.

Lemma read_insert_eq (h : heap) (cell : loc) (v : value) :
  cell < length h → read (<[cell := v]> h) cell = v.
Proof. intros H. unfold read. by rewrite list_lookup_insert_eq. Qed.

Lemma read_insert_ne (h : heap) (cell l : loc) (v : value) :
  l ≠ cell → read (<[cell := v]> h) l = read h l.
Proof. intros H. unfold read. by rewrite list_lookup_insert_ne. Qed.

Lemma cellAt_Some (p : Puzzle) (x y : nat) (cell : loc) :
  cellAt p x y = Some cell ↔ ∃ row, grid p !! y = Some row ∧ row !! x = Some cell.
Proof.
  unfold cellAt. destruct (grid p !! y) as [row|]; simpl.
  - split; [by exists row | by intros (? & [= <-] & ?)].
  - split; [done | by intros (? & ? & ?)].
Qed.

Lemma cellAt_in_range (p : Puzzle) (h : heap) (x y : nat) :
  grid_ok p h → x < size p → y < size p →
  ∃ cell, cellAt p x y = Some cell ∧ cell < length h.
Proof.
  intros (Hlen & Hrows & _ & Hlt) Hx Hy.
  destruct (lookup_lt_is_Some_2 (grid p) y) as [row Hrow]; [lia|].
  assert (length row = size p) as Hrl.
  { eapply (proj1 (Forall_forall _ _) Hrows). by eapply list_elem_of_lookup_2. }
  destruct (lookup_lt_is_Some_2 row x) as [cell Hcell]; [lia|].
  exists cell. split; [apply cellAt_Some; by exists row|].
  eapply (proj1 (Forall_forall _ _) Hlt).
  apply list_elem_of_In, in_concat. exists row.
  split; apply list_elem_of_In; by eapply list_elem_of_lookup_2.
Qed.

(** Outside the grid there is no cell to write, and the method throws. *)
Lemma setValue_out_of_range (p : Puzzle) (h : heap) (x y : nat) (v : value) :
  grid_ok p h → size p ≤ x ∨ size p ≤ y → setValue p x y v h = Throw TypeError.
Proof.
  intros (Hlen & Hrows & _) Hout. unfold setValue.
  destruct (grid p !! y) as [row|] eqn:Hrow; [|done].
  assert (length row = size p) as Hrl.
  { eapply (proj1 (Forall_forall _ _) Hrows). by eapply list_elem_of_lookup_2. }
  apply lookup_lt_Some in Hrow.
  destruct Hout as [Hout|Hout]; [|lia].
  by rewrite (lookup_ge_None_2 row x) by lia.
Qed.

(** C9. On a puzzle built by the constructor, [setValue(x, y, value)]
    inside the grid writes the value of the one cell at that coordinate.
    The puzzle comes back unchanged, so each coordinate still holds the
    cell object it held; the cell at [(x, y)] now holds the value; every
    other cell, in the grid or not, holds what it held; and the values
    any rule reads are the old ones with that one cell updated. *)
Theorem setValue_writes_one_cell (p : Puzzle) (h : heap) (x y : nat) (v : value) :
  reachable p h → x < size p → y < size p →
  ∃ cell h',
    cellAt p x y = Some cell
    ∧ setValue p x y v h = Ok (p, h')
    ∧ length h' = length h
    ∧ getValue p x y h' = Some v
    ∧ (∀ x' y', (x', y') ≠ (x, y) → getValue p x' y' h' = getValue p x' y' h)
    ∧ (∀ l, l ≠ cell → read h' l = read h l)
    ∧ (∀ cells : list loc,
         cellValues h' cells
         = (λ l, if decide (l = cell) then v else read h l) <$> cells).
Proof.
  intros Hreach Hx Hy. pose proof (reachable_grid_ok _ _ Hreach) as Hok.
  destruct (cellAt_in_range _ _ _ _ Hok Hx Hy) as (cell & Hcell & Hlt).
  exists cell, (<[cell := v]> h).
  pose proof Hcell as (row & Hrow & Hrx)%cellAt_Some.
  split_and!.
  - done.
  - unfold setValue. by rewrite Hrow, Hrx.
  - apply length_insert.
  - unfold getValue. rewrite Hcell. simpl. by rewrite read_insert_eq.
  - intros x' y' Hne. unfold getValue.
    destruct (cellAt p x' y') as [cell'|] eqn:Hcell'; [simpl|done].
    f_equal. apply read_insert_ne. intros ->.
    apply cellAt_Some in Hcell' as (row' & Hrow' & Hrx').
    destruct Hok as (_ & _ & Hnd & _).
    destruct (grid_cells_distinct _ _ _ _ _ _ _ _ Hnd Hrow Hrx Hrow' Hrx')
      as [-> ->].
    done.
  - intros l Hl. by apply read_insert_ne.
  - intros cells. unfold cellValues. apply map_ext. intros l.
    destruct (decide (l = cell)) as [->|Hne].
    + by apply read_insert_eq.
    + by apply read_insert_ne.
Qed.

Lemma setValue_writes_one_cell_witness :
  ∃ cell h',
    cellAt (new_Puzzle 2 []).1 0 1 = Some cell
    ∧ setValue (new_Puzzle 2 []).1 0 1 (number 5) (new_Puzzle 2 []).2
      = Ok ((new_Puzzle 2 []).1, h')
    ∧ length h' = length (new_Puzzle 2 []).2
    ∧ getValue (new_Puzzle 2 []).1 0 1 h' = Some (number 5)
    ∧ (∀ x' y', (x', y') ≠ (0, 1) →
         getValue (new_Puzzle 2 []).1 x' y' h'
         = getValue (new_Puzzle 2 []).1 x' y' (new_Puzzle 2 []).2)
    ∧ (∀ l, l ≠ cell → read h' l = read (new_Puzzle 2 []).2 l)
    ∧ (∀ cells : list loc,
         cellValues h' cells
         = (λ l, if decide (l = cell) then number 5
                 else read (new_Puzzle 2 []).2 l) <$> cells).
Proof.
  apply (setValue_writes_one_cell (new_Puzzle 2 []).1 (new_Puzzle 2 []).2 0 1
           (number 5)).
  - apply (reach_new 2 []).
  - simpl. lia.
  - simpl. lia.
Defined.

(** * Further properties of the rules *)

(** ** Uniqueness and sums *)

Lemma Set_size_le (vals : list value) : Set_size vals ≤ length vals.
Proof.
  unfold Set_size. induction vals as [|v vals IH]; simpl; [done|].
  destruct (decide_rel elem_of v vals); simpl; lia.
Qed.

Lemma Set_size_NoDup (vals : list value) : Set_size vals = length vals ↔ NoDup vals.
Proof.
  induction vals as [|v vals IH].
  - split; [constructor | done].
  - rewrite NoDup_cons, <- IH. pose proof (Set_size_le vals) as Hle.
    unfold Set_size in *. simpl.
    destruct (decide_rel elem_of v vals) as [Hin|Hin]; simpl.
    + split; [lia | tauto].
    + split; [intros [= ?]; done | intros [_ ->]; done].
Qed.

Lemma checkUniques_NoDup (h : heap) (cells : list loc) :
  checkUniques h cells = true ↔ NoDup (cellValues h cells).
Proof.
  unfold checkUniques, cellCount. rewrite Nat.eqb_eq, <- Set_size_NoDup.
  unfold cellValues. by rewrite length_map.
Qed.

Lemma NoDup_numbers (zs : list Z) : NoDup (number <$> zs) ↔ NoDup zs.
Proof.
  split; [apply NoDup_fmap_1|].
  intros H. apply NoDup_fmap_2; [|done]. by intros a b [= ->].
Qed.

Lemma check_RuleRegion_eq (h : heap) (cells : list loc) :
  check h (RuleRegion cells) = Ok (checkUniques h cells).
Proof.
  unfold check, RuleBase_check. simpl. by destruct (checkUniques h cells).
Qed.

(** X1. A region passes exactly when the values of its cells are
    pairwise distinct.  Nothing else is looked at: the values need not
    be symbols of the puzzle, and one unset cell counts as one more
    value. *)
Theorem RuleRegion_check_distinct (h : heap) (cells : list loc) :
  (check h (RuleRegion cells) = Ok true ↔ NoDup (cellValues h cells))
  ∧ (check h (RuleRegion cells) = Ok false ↔ ¬ NoDup (cellValues h cells)).
Proof.
  rewrite check_RuleRegion_eq, <- checkUniques_NoDup.
  destruct (checkUniques h cells); split; split; congruence.
Qed.

(** X2. On a region of [n] cells whose values are all among the symbols
    1 to [n], passing is the same as holding each symbol exactly once:
    the values are a permutation of 1, ..., [n]. *)
Theorem RuleRegion_check_permutation (h : heap) (cells : list loc) (n : nat) :
  new_RuleRegion cells n = Ok (RuleRegion cells) →
  (∀ v, v ∈ cellValues h cells → ∃ k, v = number (Z.of_nat k) ∧ 1 ≤ k ≤ n) →
  (check h (RuleRegion cells) = Ok true
   ↔ cellValues h cells ≡ₚ (λ k, number (Z.of_nat k)) <$> seq 1 n).
Proof.
  intros Hnew Hsym.
  assert (length cells = n) as Hlen.
  { unfold new_RuleRegion, assert_ok in Hnew.
    by destruct (Nat.eqb_spec (length cells) n). }
  assert (NoDup ((λ k, number (Z.of_nat k)) <$> seq 1 n)) as Hnd.
  { apply NoDup_fmap_2; [|apply NoDup_seq]. intros a b [= H]. lia. }
  rewrite check_RuleRegion_eq. split.
  - intros [= H%checkUniques_NoDup].
    apply submseteq_length_Permutation.
    + apply NoDup_submseteq; [done|]. intros v (k & -> & Hk)%Hsym.
      apply list_elem_of_fmap. exists k. split; [done|].
      apply elem_of_seq. lia.
    + rewrite length_fmap, length_seq. unfold cellValues.
      rewrite length_map. lia.
  - intros Hp. f_equal. apply checkUniques_NoDup. by rewrite Hp.
Qed.

Lemma RuleRegion_check_permutation_witness :
  check [number 2; number 3; number 1] (RuleRegion [0; 1; 2]) = Ok true
  ↔ cellValues [number 2; number 3; number 1] [0; 1; 2]
    ≡ₚ (λ k, number (Z.of_nat k)) <$> seq 1 3.
Proof.
  apply (RuleRegion_check_permutation [number 2; number 3; number 1] [0; 1; 2] 3).
  - reflexivity.
  - intros v Hv. apply list_elem_of_In in Hv. simpl in Hv.
    destruct Hv as [<-|[<-|[<-|[]]]];
      [exists 2|exists 3|exists 1]; (split; [reflexivity|lia]).
Defined.

(** ** Odd and even *)

Lemma rem_2_odd (n : Z) : Z.rem n 2 = 1%Z ↔ (0 < n)%Z ∧ Z.odd n = true.
Proof.
  split.
  - intros H. pose proof (Z.rem_sign_mul n 2 ltac:(lia)) as Hs.
    pose proof (Z.quot_rem' n 2) as Hq. rewrite H in Hs, Hq.
    assert (Z.odd n = true) as Ho.
    { rewrite Hq, Z.add_comm, Z.odd_add_mul_2. done. }
    split; [|done]. destruct (Z.eq_dec n 0%Z) as [->|]; [done|lia].
  - intros [Hpos Ho]. rewrite Z.rem_mod_nonneg by lia.
    by rewrite Zmod_odd, Ho.
Qed.

Lemma rem_2_even (n : Z) : Z.rem n 2 = 0%Z ↔ Z.even n = true.
Proof.
  destruct (Z.le_gt_cases 0 n) as [Hn|Hn].
  - rewrite Z.rem_mod_nonneg by lia. rewrite Zmod_even.
    destruct (Z.even n); split; done.
  - replace n with (- (- n))%Z by lia.
    rewrite Z.rem_opp_l by lia. rewrite Z.even_opp.
    rewrite Z.rem_mod_nonneg by lia. rewrite Zmod_even.
    destruct (Z.even (- n)); split; done.
Qed.

Lemma check_sum_only (h : heap) (r : Rule) (cells : list loc) :
  isUniques r = flag_false → isSum r = flag_true → isRelation r = flag_false →
  RuleBase_check h r cells = Ok (checkSum h r cells).
Proof.
  intros Hu Hs Hr. unfold RuleBase_check. rewrite Hu, Hs, Hr. simpl.
  by destruct (checkSum h r cells).
Qed.

Lemma rem_number_2 (n : Z) : rem (number n) (number 2) = number (Z.rem n 2).
Proof.
  unfold rem, scale, make. cbn [toNumber real fst snd].
  change (Z.max 0 0) with 0%Z. change (0 - 0)%Z with 0%Z.
  change (2 =? 0)%Z with false. change (0 <=? 0)%Z with true. cbv iota.
  change (- 0)%Z with 0%Z. by rewrite Z.pow_0_r, !Z.mul_1_r.
Qed.

Lemma lowest_odd (s : bool) (p e : positive) :
  Z.odd (Zpos p) = true → ∃ k, lowest s p e = fraction s k e.
Proof. destruct p; [by eexists|done|by eexists]. Qed.

Lemma rem_fraction_2 (s : bool) (k : N) (e : positive) :
  ∃ t l, rem (fraction s k e) (number 2) = fraction t l e.
Proof.
  unfold rem, scale, make. cbn [toNumber real fst snd].
  change (2 =? 0)%Z with false. cbv iota.
  rewrite Z.max_l, Z.sub_diag, Z.sub_0_r, Z.pow_0_r, Z.mul_1_r by lia.
  destruct (Z.leb_spec (Zpos e) 0) as [|_]; [lia|].
  set (A := signed s (2 * Z.of_N k + 1)).
  assert (Z.odd A = true) as HA.
  { unfold A. destruct s; unfold signed; rewrite ?Z.odd_opp;
      by rewrite Z.add_comm, Z.odd_add_mul_2. }
  assert (Z.odd (Z.rem A (2 * 2 ^ Zpos e)) = true) as HR.
  { assert (0 < 2 ^ Zpos e)%Z by (apply Z.pow_pos_nonneg; lia).
    rewrite Z.rem_eq by lia. rewrite Z.odd_sub, HA, <- Z.mul_assoc, Z.odd_mul.
    done. }
  change (Z.to_pos (Zpos e)) with e.
  destruct (Z.rem A (2 * 2 ^ Zpos e)) as [|p|p]; [done| |].
  - destruct (lowest_odd false p e HR) as [l Hl]. eauto.
  - destruct (lowest_odd true p e HR) as [l Hl]. eauto.
Qed.

(** [total % 2 === r]: the total is an integer with that remainder *)
Lemma rem_2_eq (v : value) (r : Z) :
  strict_eq (rem v (number 2)) (number r) = true
  ↔ ∃ n, v = number n ∧ Z.rem n 2 = r.
Proof.
  destruct v as [| |n|s|s k e].
  - split; [done | by intros (? & ? & _)].
  - split; [done | by intros (? & ? & _)].
  - rewrite rem_number_2, strict_eq_number. split.
    + intros [= H]. by exists n.
    + by intros (? & [= <-] & ->).
  - split; [done | by intros (? & ? & _)].
  - destruct (rem_fraction_2 s k e) as (t & l & ->).
    split; [done | by intros (? & ? & _)].
Qed.

(** X3. Odd and even look at the total of the referenced values, the
    binary64 sum accumulated from 0 in the order of the cells.  Even
    passes when the total is an even integer.  Odd passes when the total
    is an odd and positive integer: [%] takes the sign of the total, so
    a negative odd total satisfies neither rule, and neither does a line
    with an unset cell.  The parity is that of the rounded total: on
    [2^53] and 1 the total is [2^53], and even passes. *)
Theorem RuleOdd_RuleEven_check_parity (h : heap) (cells : list loc) :
  (check h (RuleOdd cells) = Ok true
   ↔ ∃ n, total (cellValues h cells) = number n ∧ (0 < n)%Z ∧ Z.odd n = true)
  ∧ (check h (RuleEven cells) = Ok true
     ↔ ∃ n, total (cellValues h cells) = number n ∧ Z.even n = true)
  ∧ (∀ n, total (cellValues h cells) = number n → (n < 0)%Z → Z.odd n = true →
       check h (RuleOdd cells) = Ok false ∧ check h (RuleEven cells) = Ok false)
  ∧ (undefined ∈ cellValues h cells ∨ NaN ∈ cellValues h cells →
       check h (RuleOdd cells) = Ok false ∧ check h (RuleEven cells) = Ok false)
  ∧ (∀ zs, cellValues h cells = number <$> zs → safe_sums 0 zs →
       (check h (RuleOdd cells) = Ok true
        ↔ (0 < foldr Z.add 0 zs)%Z ∧ Z.odd (foldr Z.add 0%Z zs) = true)
       ∧ (check h (RuleEven cells) = Ok true ↔ Z.even (foldr Z.add 0%Z zs) = true))
  ∧ check sample_heap_rounded (RuleOdd [0; 1]) = Ok false
  ∧ check sample_heap_rounded (RuleEven [0; 1]) = Ok true.
Proof.
  assert (Hodd : check h (RuleOdd cells)
                 = Ok (strict_eq (rem (total (cellValues h cells)) (number 2)) (number 1)))
    by (unfold check; by rewrite check_sum_only).
  assert (Heven : check h (RuleEven cells)
                  = Ok (strict_eq (rem (total (cellValues h cells)) (number 2)) (number 0)))
    by (unfold check; by rewrite check_sum_only).
  assert (Ho : check h (RuleOdd cells) = Ok true
    ↔ ∃ n, total (cellValues h cells) = number n ∧ (0 < n)%Z ∧ Z.odd n = true).
  { rewrite Hodd. split.
    - intros [= (n & Hn & H%rem_2_odd)%rem_2_eq]. by exists n.
    - intros (n & Hn & H%rem_2_odd). f_equal. apply rem_2_eq. by exists n. }
  assert (He : check h (RuleEven cells) = Ok true
    ↔ ∃ n, total (cellValues h cells) = number n ∧ Z.even n = true).
  { rewrite Heven. split.
    - intros [= (n & Hn & H%rem_2_even)%rem_2_eq]. by exists n.
    - intros (n & Hn & H%rem_2_even). f_equal. apply rem_2_eq. by exists n. }
  split_and!; [done|done| | | |by vm_compute|by vm_compute].
  - intros n Hn Hneg Hon. rewrite Hodd, Heven, Hn, rem_number_2.
    split; f_equal; apply not_true_is_false.
    + intros [= H]%strict_eq_number. apply rem_2_odd in H. lia.
    + intros [= H]%strict_eq_number. apply rem_2_even in H.
      rewrite <- Z.negb_odd, Hon in H. done.
  - intros Hin. rewrite Hodd, Heven. unfold total, reduce.
    by rewrite (fold_add_poison _ _ Hin).
  - intros zs Hzs Hsafe. rewrite Ho, He, Hzs, (total_safe _ Hsafe). split.
    + split; [by intros (n & [= <-] & H) | intros H; by eexists].
    + split; [by intros (n & [= <-] & H) | intros H; by eexists].
Qed.

Lemma RuleOdd_RuleEven_check_parity_witness :
  check [number (-3)] (RuleOdd [0]) = Ok false
  ∧ check [number (-3)] (RuleEven [0]) = Ok false.
Proof.
  apply (proj1 (proj2 (proj2 (RuleOdd_RuleEven_check_parity [number (-3)] [0])))
           (-3)%Z).
  - reflexivity.
  - lia.
  - reflexivity.
Defined.

(** ** Killer cage, little killer and XV *)

(** X4. A killer cage passes exactly when its values are pairwise
    distinct and their total, the binary64 sum accumulated from 0 in the
    order of the cells, is the target.  On integers whose running
    totals stay within [2^53] in magnitude the additions are exact, and
    the cage passes exactly when the values are distinct and sum to the
    target. *)
Theorem RuleKillerCage_check_distinct_sum (h : heap) (cells : list loc) (s : Z) :
  (check h (RuleKillerCage cells s) = Ok true
   ↔ NoDup (cellValues h cells) ∧ total (cellValues h cells) = number s)
  ∧ (∀ zs, cellValues h cells = number <$> zs → safe_sums 0 zs →
       (check h (RuleKillerCage cells s) = Ok true
        ↔ NoDup zs ∧ foldr Z.add 0%Z zs = s)).
Proof.
  assert (H : check h (RuleKillerCage cells s) = Ok true
    ↔ NoDup (cellValues h cells) ∧ total (cellValues h cells) = number s).
  { rewrite <- checkUniques_NoDup, <- strict_eq_number.
    unfold check, RuleBase_check, checkSum. simpl.
    destruct (checkUniques h cells),
             (strict_eq (total (cellValues h cells)) (number s)); simpl;
      split; (done || by intros [? ?]). }
  split; [done|]. intros zs Hzs Hsafe.
  rewrite H, Hzs, NoDup_numbers, (total_safe _ Hsafe).
  split; intros [? ?]; split; congruence.
Qed.

Lemma RuleKillerCage_check_distinct_sum_witness :
  check [number 1; number 2] (RuleKillerCage [0; 1] 3) = Ok true
  ↔ NoDup [1; 2]%Z ∧ foldr Z.add 0%Z [1; 2]%Z = 3%Z.
Proof.
  apply (proj2 (RuleKillerCage_check_distinct_sum [number 1; number 2] [0; 1] 3)
           [1; 2]%Z).
  - reflexivity.
  - unfold safe_sums, safe. simpl. lia.
Defined.

(** X5. A little killer and an XV clue are the same check: the total of
    the values, the binary64 sum accumulated from 0 in the order of the
    cells, is the target.  Repeated values are allowed, and an unset
    cell fails the rule.  On integers whose running totals stay within
    [2^53] in magnitude, the check passes exactly when they sum to the
    target; beyond, the total is rounded: [2^53] and 1 pass the target
    [2^53]. *)
Theorem exact_sum_rules_check (h : heap) (cells : list loc) (s : Z) :
  (check h (RuleLittleKiller cells s) = Ok true
   ↔ total (cellValues h cells) = number s)
  ∧ (∀ zs, cellValues h cells = number <$> zs → safe_sums 0 zs →
       (check h (RuleLittleKiller cells s) = Ok true ↔ foldr Z.add 0%Z zs = s))
  ∧ check h (RuleXV cells s) = check h (RuleLittleKiller cells s)
  ∧ (undefined ∈ cellValues h cells → check h (RuleLittleKiller cells s) = Ok false)
  ∧ check sample_heap_rounded (RuleLittleKiller [0; 1] (2 ^ 53)) = Ok true.
Proof.
  assert (Hlk : check h (RuleLittleKiller cells s)
                = Ok (strict_eq (total (cellValues h cells)) (number s)))
    by (unfold check; by rewrite check_sum_only).
  assert (H : check h (RuleLittleKiller cells s) = Ok true
              ↔ total (cellValues h cells) = number s).
  { rewrite Hlk, <- strict_eq_number. split; congruence. }
  split_and!; [done| | | |by vm_compute].
  - intros zs Hzs Hsafe. rewrite H, Hzs, (total_safe _ Hsafe).
    split; congruence.
  - rewrite Hlk. unfold check. by rewrite check_sum_only.
  - intros Hin. rewrite Hlk. unfold total, reduce.
    rewrite fold_add_poison by auto. done.
Qed.

Lemma exact_sum_rules_check_witness :
  check [number 5; undefined] (RuleLittleKiller [0; 1] 5) = Ok false.
Proof.
  apply (proj1 (proj2 (proj2 (proj2
           (exact_sum_rules_check [number 5; undefined] [0; 1] 5))))).
  apply list_elem_of_In. simpl. auto.
Defined.

(** ** Palindrome *)

Lemma strict_eq_true (a b : value) : strict_eq a b = true ↔ a = b ∧ a ≠ NaN.
Proof.
  destruct a as [| |x|s|s k e], b as [| |y|t|t l f]; simpl;
    try (split; [done | by intros [? ?]]).
  - rewrite Z.eqb_eq. split; [by intros -> | by intros [[= ->] _]].
  - rewrite eqb_true_iff. split; [by intros -> | by intros [[= ->] _]].
  - rewrite !andb_true_iff, eqb_true_iff, N.eqb_eq, Pos.eqb_eq.
    split; [by intros [[-> ->] ->] | by intros [[= -> -> ->] _]].
Qed.

(** X6. A palindrome passes exactly when its values read the same in
    both directions and none of them is [NaN]; unset cells compare equal
    to each other. *)
Theorem RulePalindrome_check_reverse (h : heap) (cells : list loc) :
  check h (RulePalindrome cells) = Ok true
  ↔ cellValues h cells = reverse (cellValues h cells) ∧ NaN ∉ cellValues h cells.
Proof.
  unfold check, RulePalindrome_check. set (vals := cellValues h cells).
  assert (Hget : ∀ i, i < length vals →
            get vals (Z.of_nat (length vals) - 1 - Z.of_nat i)
            = default undefined (reverse vals !! i)).
  { intros i Hi. rewrite reverse_lookup by done.
    replace (Z.of_nat (length vals) - 1 - Z.of_nat i)%Z
      with (Z.of_nat (length vals - S i)) by lia.
    destruct (lookup_lt_is_Some_2 vals (length vals - S i)) as [x Hx]; [lia|].
    by rewrite (get_lookup _ _ _ Hx), Hx. }
  split.
  - intros [= H]. rewrite every_spec in H.
    assert (∀ i x, vals !! i = Some x → reverse vals !! i = Some x ∧ x ≠ NaN) as H'.
    { intros i x Hx. specialize (H i x Hx). apply strict_eq_true in H as [H Hn].
      pose proof (lookup_lt_Some _ _ _ Hx) as Hi. rewrite (Hget i Hi) in H.
      destruct (lookup_lt_is_Some_2 (reverse vals) i) as [z Hz].
      { by rewrite length_reverse. }
      rewrite Hz in H. simpl in H. by subst. }
    split.
    + apply list_eq. intros i. destruct (vals !! i) as [x|] eqn:Hx.
      * symmetry. by apply H'.
      * symmetry. apply lookup_ge_None. rewrite length_reverse.
        by apply lookup_ge_None.
    + intros [i Hi]%list_elem_of_lookup. by destruct (H' i NaN Hi).
  - intros [Hrev Hnan]. f_equal. apply every_spec. intros i x Hx.
    pose proof (lookup_lt_Some _ _ _ Hx) as Hi.
    rewrite (Hget i Hi), <- Hrev, Hx. simpl. apply strict_eq_true.
    split; [done|]. intros ->. apply Hnan. by eapply list_elem_of_lookup_2.
Qed.

(** ** Difference and ratio *)

Lemma relation_check_spec (h : heap) (r : Rule) (cells : list loc)
    (rel : value → value → bool) :
  isUniques r = flag_false → isSum r = flag_false →
  not_false (isRelation r) = true → relation r = Some rel →
  (∃ b, RuleBase_check h r cells = Ok b)
  ∧ (RuleBase_check h r cells = Ok true
     ↔ ∀ i a b, cellValues h cells !! i = Some a →
                cellValues h cells !! S i = Some b → rel a b = true).
Proof.
  intros Hu Hs Hr Hrel. unfold RuleBase_check, checkRelation.
  rewrite Hu, Hs, Hr, Hrel. simpl. set (vals := cellValues h cells).
  split; [destruct (every _ vals); by eexists|].
  transitivity (every (λ value i, (i =? 0) || rel (get vals (Z.of_nat i - 1)) value)
                      vals = true).
  { destruct (every _ vals); simpl; split; congruence. }
  rewrite every_spec. split.
  - intros H i a b Ha Hb. specialize (H (S i) b Hb). simpl in H.
    replace (Z.of_nat (S i) - 1)%Z with (Z.of_nat i) in H by lia.
    by rewrite (get_lookup _ _ _ Ha) in H.
  - intros H [|i] b Hb; [done|]. simpl.
    destruct (lookup_lt_is_Some_2 vals i) as [a Ha].
    { apply lookup_lt_Some in Hb. lia. }
    replace (Z.of_nat (S i) - 1)%Z with (Z.of_nat i) by lia.
    rewrite (get_lookup _ _ _ Ha). by apply (H i).
Qed.

Lemma consecutive_numbers (zs : list Z) (rel : value → value → bool)
    (P : Z → Z → Prop) :
  (∀ i x y, zs !! i = Some x → zs !! S i = Some y →
            (rel (number x) (number y) = true ↔ P x y)) →
  (∀ i a b, (number <$> zs) !! i = Some a → (number <$> zs) !! S i = Some b →
            rel a b = true)
  ↔ (∀ i x y, zs !! i = Some x → zs !! S i = Some y → P x y).
Proof.
  intros HP. split.
  - intros H i x y Hx Hy. apply (HP i); [done..|].
    apply (H i); rewrite list_lookup_fmap.
    + by rewrite Hx.
    + by rewrite Hy.
  - intros H i a b Ha Hb. rewrite list_lookup_fmap in Ha, Hb.
    destruct (zs !! i) as [x|] eqn:Hx; [|done].
    destruct (zs !! S i) as [y|] eqn:Hy; [|done].
    injection Ha as <-. injection Hb as <-. apply (HP i); [done..|].
    by apply (H i).
Qed.

Lemma sub_undefined_l (v : value) : sub undefined v = NaN.
Proof. unfold sub, add. simpl. by destruct (neg v). Qed.

Lemma sub_undefined_r (v : value) : sub v undefined = NaN.
Proof. unfold sub. by apply add_NaN_r. Qed.

Lemma mul_undefined_l (v : value) : mul undefined v = NaN.
Proof. by destruct v as [| |[]| |]. Qed.

Lemma lowest_defined (s : bool) (p e : positive) : lowest s p e ≠ undefined.
Proof.
  revert e; induction p as [p IH|p IH|]; intros e; simpl; [done| |done].
  destruct e; [apply IH..|done].
Qed.

Lemma F_defined (m e : Z) : F m e ≠ undefined.
Proof.
  unfold F, make. repeat case_match; try done; apply lowest_defined.
Qed.

(** A product is a number, never [undefined]. *)
Lemma mul_defined (a b : value) : mul a b ≠ undefined.
Proof.
  unfold mul.
  destruct (toNumber a) as [| |[| |]| |], (toNumber b) as [| |[| |]| |];
    cbn [real fst snd is_negative xorb]; try done; apply F_defined.
Qed.

(** X7. A difference clue passes exactly when every two consecutive
    values differ by the given amount in one direction or the other,
    the difference being the binary64 one.  On integers whose
    consecutive differences stay within [2^53] in magnitude the
    subtraction is exact and this is [|a - b| = |d|]: the sign of the
    clue and the order of the cells do not matter.  With fewer than two
    cells there is nothing to compare and the rule passes. *)
Theorem RuleDifference_check_abs (h : heap) (cells : list loc) (d : Z) :
  (∀ zs, cellValues h cells = number <$> zs →
     (∀ i x y, zs !! i = Some x → zs !! S i = Some y → safe (x - y)) →
     (check h (RuleDifference cells d) = Ok true
      ↔ ∀ i x y, zs !! i = Some x → zs !! S i = Some y → Z.abs (x - y) = Z.abs d))
  ∧ (∀ i, cellValues h cells !! i = Some undefined → S i < length cells →
       check h (RuleDifference cells d) = Ok false)
  ∧ (length cells ≤ 1 → check h (RuleDifference cells d) = Ok true).
Proof.
  destruct (relation_check_spec h (RuleDifference cells d) cells _
              eq_refl eq_refl eq_refl eq_refl) as [[b Hb] Hspec].
  change (RuleBase_check h (RuleDifference cells d) cells)
    with (check h (RuleDifference cells d)) in Hb, Hspec.
  split_and!.
  - intros zs Hzs Hsafe. rewrite Hspec, Hzs. apply consecutive_numbers.
    intros i x y Hx Hy. specialize (Hsafe i x y Hx Hy).
    assert (safe (y - x)) as Hsafe' by (unfold safe in *; lia).
    rewrite !sub_number, (F_exact _ Hsafe), (F_exact _ Hsafe').
    cbn [strict_eq]. rewrite orb_true_iff, !Z.eqb_eq. lia.
  - intros i Hi Hlen. destruct b; [|done]. exfalso.
    destruct (lookup_lt_is_Some_2 (cellValues h cells) (S i)) as [v Hv].
    { unfold cellValues. by rewrite length_map. }
    pose proof (proj1 Hspec Hb i _ _ Hi Hv) as Hrel.
    by rewrite sub_undefined_l, sub_undefined_r in Hrel.
  - intros Hlen. apply Hspec. intros i a c Ha Hc.
    apply lookup_lt_Some in Hc. unfold cellValues in Hc.
    rewrite length_map in Hc. lia.
Qed.

Lemma RuleDifference_check_abs_witness :
  check [number 1; number 6] (RuleDifference [0; 1] (-5)) = Ok true
  ↔ ∀ i x y, [1; 6]%Z !! i = Some x → [1; 6]%Z !! S i = Some y →
             Z.abs (x - y) = Z.abs (-5).
Proof.
  apply (proj1 (RuleDifference_check_abs [number 1; number 6] [0; 1] (-5))).
  - reflexivity.
  - intros [|[|i]] x y Hx Hy; [|done..].
    injection Hx as <-. injection Hy as <-. unfold safe. simpl. lia.
Defined.

(** X8. A ratio clue passes exactly when, of every two consecutive
    values, one is the other times the ratio, the product being the
    binary64 one.  On integers whose products with the ratio stay within
    [2^53] in magnitude the multiplication is exact.  An unset cell next
    to another cell fails the rule. *)
Theorem RuleRatio_check_multiple (h : heap) (cells : list loc) (ratio : Z) :
  (∀ zs, cellValues h cells = number <$> zs →
     (∀ x, x ∈ zs → safe (x * ratio)) →
     (check h (RuleRatio cells ratio) = Ok true
      ↔ ∀ i x y, zs !! i = Some x → zs !! S i = Some y →
                 (x * ratio = y ∨ y * ratio = x)%Z))
  ∧ (∀ i, cellValues h cells !! i = Some undefined → S i < length cells →
       check h (RuleRatio cells ratio) = Ok false).
Proof.
  destruct (relation_check_spec h (RuleRatio cells ratio) cells _
              eq_refl eq_refl eq_refl eq_refl) as [[b Hb] Hspec].
  change (RuleBase_check h (RuleRatio cells ratio) cells)
    with (check h (RuleRatio cells ratio)) in Hb, Hspec.
  split.
  - intros zs Hzs Hsafe. rewrite Hspec, Hzs. apply consecutive_numbers.
    intros i x y Hx%list_elem_of_lookup_2 Hy%list_elem_of_lookup_2.
    rewrite !mul_number, (F_exact _ (Hsafe x Hx)), (F_exact _ (Hsafe y Hy)).
    cbn [strict_eq]. by rewrite orb_true_iff, !Z.eqb_eq.
  - intros i Hi Hlen. destruct b; [|done]. exfalso.
    destruct (lookup_lt_is_Some_2 (cellValues h cells) (S i)) as [v Hv].
    { unfold cellValues. by rewrite length_map. }
    pose proof (proj1 Hspec Hb i _ _ Hi Hv) as Hrel.
    rewrite mul_undefined_l in Hrel. cbn [strict_eq orb] in Hrel.
    pose proof (mul_defined v (number ratio)) as Hdef.
    by destruct (mul v (number ratio)).
Qed.

Lemma RuleRatio_check_multiple_witness :
  check [number 8; number 4] (RuleRatio [0; 1] 2) = Ok true
  ↔ ∀ i x y, [8; 4]%Z !! i = Some x → [8; 4]%Z !! S i = Some y →
             (x * 2 = y ∨ y * 2 = x)%Z.
Proof.
  apply (proj1 (RuleRatio_check_multiple [number 8; number 4] [0; 1] 2)).
  - reflexivity.
  - intros x Hx. apply list_elem_of_In in Hx. simpl in Hx. unfold safe.
    destruct Hx as [<-|[<-|[]]]; simpl; lia.
Defined.

(** ** Slices *)

Lemma slice_nat {A} (a b : nat) (arr : list A) :
  a ≤ length arr → b ≤ length arr →
  slice (Z.of_nat a) (Z.of_nat b) arr = take (b - a) (drop a arr).
Proof.
  intros Ha Hb. unfold slice, relative.
  destruct (Z.ltb_spec (Z.of_nat a) 0); [lia|].
  destruct (Z.ltb_spec (Z.of_nat b) 0); [lia|].
  rewrite !Z.min_l by lia. rewrite Nat2Z.id. f_equal. lia.
Qed.

Lemma slice_from_tail {A} (x : A) (arr : list A) : slice_from 1 (x :: arr) = arr.
Proof.
  unfold slice_from. rewrite (slice_nat 1 (length (x :: arr))) by (simpl; lia).
  simpl. rewrite Nat.sub_0_r. apply firstn_all.
Qed.

Lemma slice_interior {A} (x y : A) (mid : list A) :
  slice 1 (-1) (x :: mid ++ [y]) = mid.
Proof.
  unfold slice, relative. simpl length. rewrite length_app. simpl length.
  destruct (Z.ltb_spec 1 0); [lia|]. destruct (Z.ltb_spec (-1) 0); [|lia].
  rewrite Z.min_l, Z.max_l by lia.
  replace (Z.to_nat 1) with 1 by lia. simpl drop.
  replace (Z.to_nat _) with (length mid) by lia.
  by rewrite drop_0, take_app_length.
Qed.

Lemma every_const_spec {A} (f : A → bool) (arr : list A) :
  every (λ x _, f x) arr = true ↔ ∀ x, x ∈ arr → f x = true.
Proof.
  rewrite every_spec. split.
  - intros H x [i Hi]%list_elem_of_lookup. by apply (H i).
  - intros H i x Hi. apply H. by eapply list_elem_of_lookup_2.
Qed.

(** ** Comparison *)

Lemma lt_real (a b : value) (p q : Z * Z) :
  real (toNumber a) = Some p → real (toNumber b) = Some q →
  lt a b = (scale p (Z.max p.2 q.2) <? scale q (Z.max p.2 q.2))%Z.
Proof. destruct a, b; cbn [toNumber real]; intros [= <-] [= <-]; reflexivity. Qed.

Lemma lt_asym (a b : value) : lt a b = true → lt b a = false.
Proof.
  destruct (real (toNumber a)) as [p|] eqn:Hp, (real (toNumber b)) as [q|] eqn:Hq.
  - rewrite (lt_real a b p q), (lt_real b a q p), (Z.max_comm q.2 p.2) by done.
    intros H%Z.ltb_lt. apply Z.ltb_ge. lia.
  - destruct a as [| | |[]|], b as [| | |[]|]; simpl in *; done.
  - destruct a as [| | |[]|], b as [| | |[]|]; simpl in *; done.
  - destruct a as [| | |[]|], b as [| | |[]|]; simpl in *; done.
Qed.

Lemma pow2_even (n : Z) : (0 < n)%Z → ∃ m, (2 ^ n = 2 * m)%Z.
Proof.
  intros Hn. exists (2 ^ (n - 1))%Z. rewrite <- Z.pow_succ_r by lia.
  f_equal; lia.
Qed.

Lemma lt_connex (a b : value) :
  toNumber a ≠ NaN → toNumber b ≠ NaN → lt a b = false → lt b a = false →
  toNumber a = toNumber b.
Proof.
  destruct a as [| |x|s|s k e], b as [| |y|t|t l f]; try done; intros _ _.
  - rewrite <- !not_true_iff_false, !lt_number. intros ??. simpl. f_equal. lia.
  - by destruct t.
  - rewrite (lt_real _ _ (x, 0%Z) (signed t (2 * Z.of_N l + 1), Zpos f)),
      (lt_real _ _ (signed t (2 * Z.of_N l + 1), Zpos f) (x, 0%Z)) by done.
    unfold scale. cbn [fst snd]. rewrite Z.max_r, Z.max_l by lia.
    rewrite Z.sub_diag, Z.sub_0_r, Z.pow_0_r.
    destruct (pow2_even (Zpos f)) as [m ->]; [lia|].
    replace (x * (2 * m))%Z with (2 * (x * m))%Z by ring.
    generalize (x * m)%Z. intros w H1%Z.ltb_ge H2%Z.ltb_ge.
    exfalso. destruct t; unfold signed in *; lia.
  - by destruct s.
  - by destruct s, t.
  - by destruct s.
  - rewrite (lt_real _ _ (signed s (2 * Z.of_N k + 1), Zpos e) (y, 0%Z)),
      (lt_real _ _ (y, 0%Z) (signed s (2 * Z.of_N k + 1), Zpos e)) by done.
    unfold scale. cbn [fst snd]. rewrite Z.max_l, Z.max_r by lia.
    rewrite Z.sub_diag, Z.sub_0_r, Z.pow_0_r.
    destruct (pow2_even (Zpos e)) as [m ->]; [lia|].
    replace (y * (2 * m))%Z with (2 * (y * m))%Z by ring.
    generalize (y * m)%Z. intros w H1%Z.ltb_ge H2%Z.ltb_ge.
    exfalso. destruct s; unfold signed in *; lia.
  - by destruct t.
  - rewrite (lt_real _ _ (signed s (2 * Z.of_N k + 1), Zpos e)
               (signed t (2 * Z.of_N l + 1), Zpos f)),
      (lt_real _ _ (signed t (2 * Z.of_N l + 1), Zpos f)
         (signed s (2 * Z.of_N k + 1), Zpos e)) by done.
    unfold scale. cbn [fst snd]. rewrite (Z.max_comm (Zpos f)).
    intros H1%Z.ltb_ge H2%Z.ltb_ge.
    assert (signed s (2 * Z.of_N k + 1) * 2 ^ (Z.max (Zpos e) (Zpos f) - Zpos e)
            = signed t (2 * Z.of_N l + 1) * 2 ^ (Z.max (Zpos e) (Zpos f) - Zpos f))%Z
      as H by lia.
    clear H1 H2. simpl.
    destruct (Z.lt_trichotomy (Zpos e) (Zpos f)) as [Hlt|[[= ->]|Hlt]].
    + rewrite Z.max_r, Z.sub_diag, Z.pow_0_r in H by lia.
      destruct (pow2_even (Zpos f - Zpos e)) as [m Hm]; [lia|]. rewrite Hm in H.
      set (w := (signed s (2 * Z.of_N k + 1) * m)%Z).
      assert (2 * w = signed t (2 * Z.of_N l + 1))%Z as Hw by (unfold w; lia).
      exfalso. destruct t; unfold signed in Hw; lia.
    + rewrite Z.max_id, Z.sub_diag, Z.pow_0_r in H.
      assert (s = t ∧ k = l) as [-> ->]; [|done].
      destruct s, t; unfold signed in H; split; (done || lia).
    + rewrite Z.max_l, Z.sub_diag, Z.pow_0_r in H by lia.
      destruct (pow2_even (Zpos e - Zpos f)) as [m Hm]; [lia|]. rewrite Hm in H.
      set (w := (signed t (2 * Z.of_N l + 1) * m)%Z).
      assert (signed s (2 * Z.of_N k + 1) = 2 * w)%Z as Hw by (unfold w; lia).
      exfalso. destruct s; unfold signed in Hw; lia.
Qed.

Lemma Math_min_eq (a b : value) :
  toNumber a ≠ NaN → toNumber b ≠ NaN →
  Math_min a b = if lt b a then toNumber b else toNumber a.
Proof. destruct a, b; done. Qed.

Lemma Math_max_eq (a b : value) :
  toNumber a ≠ NaN → toNumber b ≠ NaN →
  Math_max a b = if lt a b then toNumber b else toNumber a.
Proof. destruct a, b; done. Qed.

Lemma Math_min_comm (a b : value) : Math_min a b = Math_min b a.
Proof.
  destruct (decide (toNumber a = NaN)) as [Ha|Ha].
  { unfold Math_min. rewrite Ha. by destruct (toNumber b). }
  destruct (decide (toNumber b = NaN)) as [Hb|Hb].
  { unfold Math_min. rewrite Hb. by destruct (toNumber a). }
  rewrite !Math_min_eq by done.
  destruct (lt b a) eqn:H1, (lt a b) eqn:H2; try done.
  - by rewrite (lt_asym _ _ H1) in H2.
  - by apply lt_connex.
Qed.

Lemma Math_max_comm (a b : value) : Math_max a b = Math_max b a.
Proof.
  destruct (decide (toNumber a = NaN)) as [Ha|Ha].
  { unfold Math_max. rewrite Ha. by destruct (toNumber b). }
  destruct (decide (toNumber b = NaN)) as [Hb|Hb].
  { unfold Math_max. rewrite Hb. by destruct (toNumber a). }
  rewrite !Math_max_eq by done.
  destruct (lt b a) eqn:H1, (lt a b) eqn:H2; try done.
  - by rewrite (lt_asym _ _ H1) in H2.
  - symmetry. by apply lt_connex.
Qed.


(** ** Minimum and maximum *)

(** X9. A minimum passes exactly when the first value is less than
    every other value, a maximum when it is greater.  With no peers the
    rule passes, also on an unset cell; with peers, an unset first cell
    fails it. *)
Theorem RuleMinimum_RuleMaximum_check (h : heap) (c : loc) (peers : list loc) :
  (check h (RuleMinimum (c :: peers)) = Ok true
   ↔ ∀ v, v ∈ cellValues h peers → lt (read h c) v = true)
  ∧ (check h (RuleMaximum (c :: peers)) = Ok true
     ↔ ∀ v, v ∈ cellValues h peers → lt v (read h c) = true)
  ∧ check h (RuleMinimum [c]) = Ok true
  ∧ check h (RuleMaximum [c]) = Ok true
  ∧ check h (RuleMinimum []) = Ok true
  ∧ (peers ≠ [] →
     ¬ (check h (RuleMinimum (c :: peers)) = Ok true
        ∧ check h (RuleMaximum (c :: peers)) = Ok true)).
Proof.
  assert (Hmin : check h (RuleMinimum (c :: peers)) = Ok true
                 ↔ ∀ v, v ∈ cellValues h peers → lt (read h c) v = true).
  { unfold check, RuleMinimum_check.
    change (cellValues h (c :: peers)) with (read h c :: cellValues h peers).
    rewrite slice_from_tail, <- every_const_spec.
    change (get (read h c :: cellValues h peers) 0) with (read h c).
    split; congruence. }
  assert (Hmax : check h (RuleMaximum (c :: peers)) = Ok true
                 ↔ ∀ v, v ∈ cellValues h peers → lt v (read h c) = true).
  { unfold check, RuleMaximum_check, gt.
    change (cellValues h (c :: peers)) with (read h c :: cellValues h peers).
    rewrite slice_from_tail, <- every_const_spec.
    change (get (read h c :: cellValues h peers) 0) with (read h c).
    split; congruence. }
  split_and!; try done.
  intros Hne [H1 H2]. destruct peers as [|p peers]; [done|].
  assert (read h p ∈ cellValues h (p :: peers)) as Hin by (simpl; left).
  pose proof (proj1 Hmin H1 _ Hin) as Ha. pose proof (proj1 Hmax H2 _ Hin) as Hb.
  by rewrite (lt_asym _ _ Ha) in Hb.
Qed.

Lemma RuleMinimum_RuleMaximum_check_witness :
  ¬ (check [number 2; number 8] (RuleMinimum [0; 1]) = Ok true
     ∧ check [number 2; number 8] (RuleMaximum [0; 1]) = Ok true).
Proof.
  apply (proj2 (proj2 (proj2 (proj2 (proj2
           (RuleMinimum_RuleMaximum_check [number 2; number 8] 0 [1])))))).
  discriminate.
Defined.

(** ** Between-line *)

Lemma get_last (x y : value) (mid : list value) :
  get (x :: mid ++ [y]) (Z.of_nat (length (x :: mid ++ [y])) - 1) = y.
Proof.
  replace (Z.of_nat (length (x :: mid ++ [y])) - 1)%Z
    with (Z.of_nat (S (length mid))).
  - apply get_lookup. simpl. by rewrite list_lookup_middle.
  - simpl length. rewrite length_app. simpl. lia.
Qed.

(** X10. A between-line passes exactly when every value between its two
    ends lies strictly between the smaller and the larger end value.
    Which end is the larger does not matter, and an unset end fails the
    rule as soon as there is a cell in between. *)
Theorem RuleBetweenLine_check_interior (h : heap) (c1 c2 : loc) (mid : list loc) :
  (check h (RuleBetweenLine (c1 :: mid ++ [c2])) = Ok true
   ↔ ∀ v, v ∈ cellValues h mid →
          lt (Math_min (read h c1) (read h c2)) v = true
          ∧ lt v (Math_max (read h c1) (read h c2)) = true)
  ∧ check h (RuleBetweenLine (c2 :: mid ++ [c1]))
    = check h (RuleBetweenLine (c1 :: mid ++ [c2]))
  ∧ (mid ≠ [] → read h c1 = undefined →
     check h (RuleBetweenLine (c1 :: mid ++ [c2])) = Ok false).
Proof.
  assert (Heq : ∀ a b, check h (RuleBetweenLine (a :: mid ++ [b]))
    = Ok (every (λ cell _, lt (Math_min (read h a) (read h b)) cell
                           && lt cell (Math_max (read h a) (read h b)))
                (cellValues h mid))).
  { intros a b. unfold check, RuleBetweenLine_check.
    replace (cellValues h (a :: mid ++ [b]))
      with (read h a :: cellValues h mid ++ [read h b])
      by (unfold cellValues; simpl; by rewrite map_app).
    rewrite slice_interior, get_last. done. }
  split_and!.
  - rewrite Heq.
    pose proof (every_const_spec
      (λ v, lt (Math_min (read h c1) (read h c2)) v
            && lt v (Math_max (read h c1) (read h c2))) (cellValues h mid)) as Hev.
    simpl in Hev. split.
    + intros [= H] v Hv. apply andb_true_iff. by apply Hev.
    + intros H. f_equal. apply Hev. intros v Hv. apply andb_true_iff. by apply H.
  - rewrite !Heq. f_equal.
    by rewrite (Math_min_comm (read h c2)), (Math_max_comm (read h c2)).
  - intros Hne Hu. rewrite Heq, Hu. destruct mid as [|m mid]; [done|].
    assert (Math_min undefined (read h c2) = NaN) as Hmin
      by (by destruct (read h c2)).
    change (cellValues h (m :: mid)) with (read h m :: cellValues h mid).
    unfold every. cbn [every_from]. rewrite Hmin.
    by destruct (read h m).
Qed.

Lemma RuleBetweenLine_check_interior_witness :
  check [undefined; number 3; number 7] (RuleBetweenLine (0 :: [1] ++ [2]))
  = Ok false.
Proof.
  apply (proj2 (proj2 (RuleBetweenLine_check_interior
                         [undefined; number 3; number 7] 0 2 [1]))).
  - discriminate.
  - reflexivity.
Defined.

(** ** Clone *)

Lemma every_strict_eq_spec (clone first : list value) :
  length clone = length first →
  every (λ cell i, strict_eq cell (get first (Z.of_nat i))) clone = true
  ↔ clone = first ∧ NaN ∉ clone.
Proof.
  intros Hlen. rewrite every_spec. split.
  - intros H.
    assert (∀ i x, clone !! i = Some x → first !! i = Some x ∧ x ≠ NaN) as H'.
    { intros i x Hx. specialize (H i x Hx).
      destruct (lookup_lt_is_Some_2 first i) as [y Hy].
      { rewrite <- Hlen. by eapply lookup_lt_Some. }
      rewrite (get_lookup _ _ _ Hy) in H. apply strict_eq_true in H as [-> ?].
      done. }
    split.
    + apply list_eq. intros i. destruct (clone !! i) as [x|] eqn:Hx.
      * symmetry. by apply H'.
      * symmetry. apply lookup_ge_None. rewrite <- Hlen. by apply lookup_ge_None.
    + intros [i Hi]%list_elem_of_lookup. by destruct (H' i NaN Hi).
  - intros [<- Hnan] i x Hx. rewrite (get_lookup _ _ _ Hx).
    apply strict_eq_true. split; [done|]. intros ->. apply Hnan.
    by eapply list_elem_of_lookup_2.
Qed.

(** X11. A clone that its constructor accepted passes exactly when
    every group holds, position for position, the values of the first
    group, and no value is [NaN].  Unset cells match unset cells. *)
Theorem RuleClone_check_copies (h : heap) (first : list loc) (others : list (list loc)) :
  new_RuleClone (first :: others) = Ok (RuleClone (first :: others)) →
  (check h (RuleClone (first :: others)) = Ok true
   ↔ (NaN ∉ cellValues h first)
     ∧ ∀ g, g ∈ others → cellValues h g = cellValues h first).
Proof.
  intros Hnew.
  assert (∀ g, g ∈ others → length g = length first) as Hlen.
  { unfold new_RuleClone, assert_ok in Hnew. simpl in Hnew.
    destruct (length first =? length first); [|by destruct others].
    simpl in Hnew.
    destruct (forallb _ others) eqn:Hall; [|by destruct others].
    intros g Hg. rewrite forallb_forall in Hall.
    apply Nat.eqb_eq, Hall. by apply list_elem_of_In. }
  unfold check, RuleClone_check.
  change (groupValues h (first :: others))
    with (cellValues h first :: map (cellValues h) others).
  pose proof (every_const_spec
    (λ clone, every (λ cell i, strict_eq cell (get (cellValues h first) (Z.of_nat i)))
                    clone)
    (cellValues h first :: map (cellValues h) others)) as Hev.
  simpl in Hev. split.
  - intros [= H]. pose proof (proj1 Hev H) as Hall. split.
    + apply (every_strict_eq_spec (cellValues h first) (cellValues h first) eq_refl).
      apply Hall. by left.
    + intros g Hg. apply (every_strict_eq_spec (cellValues h g) (cellValues h first)).
      * unfold cellValues. rewrite !length_map. by apply Hlen.
      * apply Hall. right. apply list_elem_of_In, in_map. by apply list_elem_of_In.
  - intros [Hnan Hsame]. f_equal. apply Hev.
    intros vals [->|Hin]%elem_of_cons.
    + by apply every_strict_eq_spec.
    + apply list_elem_of_In, in_map_iff in Hin as (g & <- & Hg).
      apply list_elem_of_In in Hg. rewrite (Hsame g Hg).
      by apply every_strict_eq_spec.
Qed.

Lemma RuleClone_check_copies_witness :
  check [number 6; number 7; number 6; number 7] (RuleClone [[0; 1]; [2; 3]]) = Ok true
  ↔ (NaN ∉ cellValues [number 6; number 7; number 6; number 7] [0; 1])
    ∧ ∀ g, g ∈ [[2; 3]] →
           cellValues [number 6; number 7; number 6; number 7] g
           = cellValues [number 6; number 7; number 6; number 7] [0; 1].
Proof.
  apply (RuleClone_check_copies [number 6; number 7; number 6; number 7]
           [0; 1] [[2; 3]]).
  reflexivity.
Defined.

(** ** Sandwich with both sentinels *)

Lemma indexOf_first (z : Z) (vals : list value) (i : nat) :
  vals !! i = Some (number z) →
  (∀ k, k < i → vals !! k ≠ Some (number z)) →
  indexOf (number z) vals = Z.of_nat i.
Proof.
  intros Hi Hfirst.
  destruct (indexOf_from_present z 0%Z vals) as (j & Hj & Hl & Hjfirst).
  { by eapply list_elem_of_lookup_2. }
  unfold indexOf. rewrite Hj, Z.add_0_l. f_equal.
  destruct (Nat.lt_trichotomy i j) as [Hlt|[->|Hlt]]; [|done|].
  - by destruct (Hjfirst i Hlt).
  - by destruct (Hfirst j Hlt).
Qed.

(** X13. When both sentinels occur, a sandwich compares its target with
    the total of the values strictly between the first occurrence of
    one and the first occurrence of the other, whichever comes first on
    the line; the total is the binary64 sum accumulated from 0 in the
    order of the line.  Exchanging the two sentinel symbols never
    changes the result. *)
Theorem RuleSandwich_check_between (h : heap) (cells : list loc)
    (minSymbol maxSymbol s : Z) :
  (∀ i j,
     cellValues h cells !! i = Some (number minSymbol) →
     (∀ k, k < i → cellValues h cells !! k ≠ Some (number minSymbol)) →
     cellValues h cells !! j = Some (number maxSymbol) →
     (∀ k, k < j → cellValues h cells !! k ≠ Some (number maxSymbol)) →
     check h (RuleSandwich cells minSymbol maxSymbol s)
     = Ok (strict_eq
             (total (take (i `max` j - S (i `min` j))
                          (drop (S (i `min` j)) (cellValues h cells))))
             (number s)))
  ∧ check h (RuleSandwich cells maxSymbol minSymbol s)
    = check h (RuleSandwich cells minSymbol maxSymbol s).
Proof.
  split.
  - intros i j Hi Hfi Hj Hfj. unfold check, RuleSandwich_check.
    rewrite (indexOf_first _ _ _ Hi Hfi), (indexOf_first _ _ _ Hj Hfj).
    apply lookup_lt_Some in Hi, Hj.
    replace (Z.min (Z.of_nat i) (Z.of_nat j) + 1)%Z
      with (Z.of_nat (S (i `min` j))) by lia.
    replace (Z.max (Z.of_nat i) (Z.of_nat j)) with (Z.of_nat (i `max` j)) by lia.
    rewrite slice_nat by lia. done.
  - unfold check, RuleSandwich_check.
    by rewrite Z.min_comm, Z.max_comm.
Qed.

Lemma RuleSandwich_check_between_witness :
  check [number 9; number 4; number 7; number 1] (RuleSandwich [0; 1; 2; 3] 1 9 11)
  = Ok (strict_eq (total [number 4; number 7]) (number 11)).
Proof.
  apply (proj1 (RuleSandwich_check_between
                  [number 9; number 4; number 7; number 1] [0; 1; 2; 3] 1 9 11)
           3 0).
  - reflexivity.
  - intros k Hk. do 3 (destruct k as [|k]; [discriminate|]). lia.
  - reflexivity.
  - intros k Hk. lia.
Defined.

(** * Further properties of the puzzle *)

(** ** Adding rules *)

Lemma every_M_all (h : heap) (rs : list Rule) :
  (∃ b, (every_M (check_callback h) rs).2 = Ok b)
  ∧ ((every_M (check_callback h) rs).2 = Ok true
     ↔ ∀ r, r ∈ rs → check h r = Ok true).
Proof.
  induction rs as [|r rs [[b IHb] IH]].
  - split; [by exists true|]. split; [|done].
    intros _ r Hr. by apply elem_of_nil in Hr.
  - destruct (check_total h r) as [[] Hr].
    + rewrite (every_M_pass _ _ _ Hr); simpl. split; [by exists b|].
      rewrite IH. split.
      * intros H r' [->|Hin]%elem_of_cons; auto.
      * intros H r' Hin. apply H. by right.
    + rewrite (every_M_fail _ _ _ Hr); simpl. split; [by exists false|].
      split; [done|]. intros H. specialize (H r (list_elem_of_here _ _)).
      congruence.
Qed.

Lemma every_M_app (h : heap) (rs1 rs2 : list Rule) :
  every_M (check_callback h) (rs1 ++ rs2)
  = match every_M (check_callback h) rs1 with
    | (t, Ok true) =>
        (t ++ (every_M (check_callback h) rs2).1, (every_M (check_callback h) rs2).2)
    | other => other
    end.
Proof.
  induction rs1 as [|r rs1 IH].
  - simpl. by destruct (every_M (check_callback h) rs2).
  - simpl app. destruct (check_total h r) as [[] Hr].
    + rewrite !(every_M_pass _ _ _ Hr), IH.
      by destruct (every_M (check_callback h) rs1) as [t [[]|e]].
    + by rewrite !(every_M_fail _ _ _ Hr).
Qed.

(** X14. Rules added later are checked after the rules already there:
    the puzzle passes exactly when it passed before and every added rule
    passes.  If it failed before, the added rules are never reached and
    the evaluation is, event for event, what it was.  Adding rules in
    two calls is adding them in one, the grid is not touched, and a
    puzzle without rules passes. *)
Theorem addRules_check (p : Puzzle) (rs : list Rule) (h : heap) :
  ((Puzzle_check (addRules p rs) h).2 = Ok true
   ↔ (Puzzle_check p h).2 = Ok true ∧ ∀ r, r ∈ rs → check h r = Ok true)
  ∧ ((Puzzle_check p h).2 = Ok false →
     Puzzle_check (addRules p rs) h = Puzzle_check p h)
  ∧ (∀ rs', addRules (addRules p rs) rs' = addRules p (rs ++ rs'))
  ∧ grid (addRules p rs) = grid p
  ∧ (∀ size h0, Puzzle_check (new_Puzzle size h0).1 h = ([], Ok true)).
Proof.
  split_and!.
  - unfold Puzzle_check. simpl rules.
    rewrite !(proj2 (every_M_all _ _)). split.
    + intros H. split; intros r Hr; apply H, elem_of_app; auto.
    + intros [H1 H2] r [?|?]%elem_of_app; auto.
  - unfold Puzzle_check. simpl rules. intros Hf. rewrite every_M_app.
    destruct (every_M (check_callback h) (rules p)) as [t [[]|e]]; done.
  - intros rs'. unfold addRules. simpl. by rewrite app_assoc.
  - done.
  - intros size h0. unfold Puzzle_check, new_Puzzle.
    by destruct (new_grid size size h0).
Qed.

Lemma addRules_check_witness :
  Puzzle_check (addRules sample_puzzle_odd_even [RuleRegion [0]]) sample_heap_even
  = Puzzle_check sample_puzzle_odd_even sample_heap_even.
Proof.
  apply (proj1 (proj2 (addRules_check sample_puzzle_odd_even [RuleRegion [0]]
                         sample_heap_even))).
  reflexivity.
Defined.

(** ** The constructor *)

Lemma new_grid_rows (n size : nat) (h : heap) :
  (new_grid n size h).2 = h ++ replicate (n * size) undefined
  ∧ length (new_grid n size h).1 = n
  ∧ ∀ y, y < n → (new_grid n size h).1 !! y = Some (seq (length h + y * size) size).
Proof.
  revert h; induction n as [|n IH]; intros h; simpl.
  - rewrite app_nil_r. split_and!; [done|done|lia].
  - rewrite new_row_spec.
    destruct (IH (h ++ replicate size undefined)) as (Hh & Hl & Hrows).
    destruct (new_grid n size (h ++ replicate size undefined)) as [g h2].
    simpl in *. split_and!.
    + by rewrite Hh, replicate_add, app_assoc.
    + by rewrite Hl.
    + intros [|y] Hy; simpl.
      * by rewrite Nat.add_0_r.
      * rewrite Hrows by lia. rewrite length_app, length_replicate.
        do 2 f_equal. lia.
Qed.

(** X15. [new Puzzle(size)] creates [size * size] new cells, all unset,
    one per coordinate, row by row, and no cell outside the square; the
    cells that existed before keep their values; the puzzle has no
    rules. *)
Theorem new_Puzzle_fresh_grid (n : nat) (h0 : heap) :
  size (new_Puzzle n h0).1 = n
  ∧ rules (new_Puzzle n h0).1 = []
  ∧ length (new_Puzzle n h0).2 = length h0 + n * n
  ∧ (∀ x y, x < n → y < n →
       cellAt (new_Puzzle n h0).1 x y = Some (length h0 + y * n + x)
       ∧ getValue (new_Puzzle n h0).1 x y (new_Puzzle n h0).2 = Some undefined)
  ∧ (∀ x y, n ≤ x ∨ n ≤ y → cellAt (new_Puzzle n h0).1 x y = None)
  ∧ (∀ l, l < length h0 → read (new_Puzzle n h0).2 l = read h0 l).
Proof.
  unfold new_Puzzle. destruct (new_grid_rows n n h0) as (Hh & Hl & Hrows).
  destruct (new_grid n n h0) as [g h]. simpl in *. subst h.
  split_and!; try done.
  - by rewrite length_app, length_replicate.
  - intros x y Hx Hy. unfold getValue, cellAt. simpl. rewrite (Hrows y Hy). simpl.
    rewrite lookup_seq_lt by done. split; [done|]. simpl. f_equal.
    unfold read. rewrite lookup_app_r by lia.
    rewrite lookup_replicate_2; [done|]. nia.
  - intros x y Hout. unfold cellAt. simpl.
    destruct (decide (y < n)) as [Hy|Hy].
    + rewrite (Hrows y Hy). simpl. apply lookup_seq_ge. lia.
    + rewrite (lookup_ge_None_2 g y) by lia. done.
  - intros l Hl'. unfold read. by rewrite lookup_app_l.
Qed.

Lemma new_Puzzle_fresh_grid_witness :
  cellAt (new_Puzzle 9 []).1 4 2 = Some (length (@nil value) + 2 * 9 + 4)
  ∧ getValue (new_Puzzle 9 []).1 4 2 (new_Puzzle 9 []).2 = Some undefined.
Proof.
  apply (proj1 (proj2 (proj2 (proj2 (new_Puzzle_fresh_grid 9 [])))) 4 2); lia.
Defined.

(** ** Writing cells *)

Lemma setValue_cellAt (p : Puzzle) (x y : nat) (v : value) (h : heap) :
  setValue p x y v h
  = match cellAt p x y with
    | Some cell => Ok (p, <[cell := v]> h)
    | None => Throw TypeError
    end.
Proof.
  unfold setValue, cellAt. destruct (grid p !! y) as [row|]; simpl; [|done].
  by destruct (row !! x).
Qed.

Lemma cellAt_distinct (p : Puzzle) (h : heap) (x y x' y' : nat) (cell : loc) :
  grid_ok p h → cellAt p x y = Some cell → cellAt p x' y' = Some cell →
  (x, y) = (x', y').
Proof.
  intros (_ & _ & Hnd & _) (row & Hrow & Hx)%cellAt_Some (row' & Hrow' & Hx')%cellAt_Some.
  by destruct (grid_cells_distinct _ _ _ _ _ _ _ _ Hnd Hrow Hx Hrow' Hx') as [-> ->].
Qed.

Lemma run_setValue_cellAt (p : Puzzle) (h : heap) (x y : nat) (v : value) :
  run_setValue x y v (p, h)
  = match cellAt p x y with
    | Some cell => (None, (p, <[cell := v]> h))
    | None => (Some TypeError, (p, h))
    end.
Proof.
  unfold run_setValue. cbn [fst snd]. rewrite setValue_cellAt.
  by destruct (cellAt p x y).
Qed.

(** X16. Statements [puzzle.setValue(..)] run one after the other, the
    second only when the first did not throw.  Two writes to the same
    coordinate leave what the second one alone would leave.  On a puzzle
    built by the constructor, two writes inside the grid to different
    coordinates can be exchanged.  When one of the two throws the order
    matters: a write followed by a throwing one leaves the cell written,
    the throwing one first leaves the state untouched, and both end in
    the [TypeError].  Writing to a cell the value it holds changes
    nothing. *)
Theorem setValue_compose (p : Puzzle) (h : heap) :
  (∀ x y v1 v2,
     then_run (run_setValue x y v1 (p, h)) (run_setValue x y v2)
     = run_setValue x y v2 (p, h))
  ∧ (reachable p h → ∀ x y x' y' v v',
       (x, y) ≠ (x', y') → x < size p → y < size p → x' < size p → y' < size p →
       then_run (run_setValue x y v (p, h)) (run_setValue x' y' v')
       = then_run (run_setValue x' y' v' (p, h)) (run_setValue x y v))
  ∧ (∀ x y x' y' v v' cell,
       cellAt p x y = Some cell → cellAt p x' y' = None →
       then_run (run_setValue x y v (p, h)) (run_setValue x' y' v')
       = (Some TypeError, (p, <[cell := v]> h))
       ∧ then_run (run_setValue x' y' v' (p, h)) (run_setValue x y v)
         = (Some TypeError, (p, h)))
  ∧ (∀ x y v, getValue p x y h = Some v → run_setValue x y v (p, h) = (None, (p, h))).
Proof.
  split_and!.
  - intros x y v1 v2. rewrite !run_setValue_cellAt.
    destruct (cellAt p x y) as [cell|] eqn:Hc; cbn [then_run]; [|done].
    by rewrite run_setValue_cellAt, Hc, list_insert_insert_eq.
  - intros Hreach%reachable_grid_ok x y x' y' v v' Hne Hx Hy Hx' Hy'.
    destruct (cellAt_in_range p h x y Hreach Hx Hy) as (c & Hc & _).
    destruct (cellAt_in_range p h x' y' Hreach Hx' Hy') as (c' & Hc' & _).
    rewrite !run_setValue_cellAt, Hc, Hc'. cbn [then_run].
    rewrite !run_setValue_cellAt, Hc, Hc'.
    rewrite list_insert_insert_ne; [done|]. intros <-.
    by destruct Hne, (cellAt_distinct _ _ _ _ _ _ _ Hreach Hc Hc').
  - intros x y x' y' v v' cell Hc Hc'.
    rewrite !run_setValue_cellAt, Hc, Hc'. cbn [then_run].
    by rewrite run_setValue_cellAt, Hc'.
  - intros x y v Hv. rewrite run_setValue_cellAt. unfold getValue in Hv.
    destruct (cellAt p x y) as [cell|]; [|done]. simpl in Hv.
    injection Hv as <-. do 2 f_equal. unfold read.
    destruct (h !! cell) as [w|] eqn:Hw; simpl.
    + by apply list_insert_id.
    + apply list_insert_ge. by apply lookup_ge_None.
Qed.

Lemma setValue_compose_witness :
  then_run (run_setValue 0 1 (number 5) ((new_Puzzle 2 []).1, (new_Puzzle 2 []).2))
           (run_setValue 1 0 (number 7))
  = then_run (run_setValue 1 0 (number 7) ((new_Puzzle 2 []).1, (new_Puzzle 2 []).2))
             (run_setValue 0 1 (number 5)).
Proof.
  apply (proj1 (proj2 (setValue_compose (new_Puzzle 2 []).1 (new_Puzzle 2 []).2))).
  - apply (reach_new 2 []).
  - discriminate.
  - simpl. lia.
  - simpl. lia.
  - simpl. lia.
  - simpl. lia.
Defined.

Lemma every_M_agree (h1 h2 : heap) (rs : list Rule) :
  (∀ r, r ∈ rs → check h1 r = check h2 r) →
  every_M (check_callback h1) rs = every_M (check_callback h2) rs.
Proof.
  induction rs as [|r rs IH]; intros H; [done|]. simpl.
  assert (check_callback h1 r = check_callback h2 r) as ->.
  { unfold check_callback, call_check. rewrite (H r); [done | by left]. }
  rewrite IH; [done|]. intros r' Hr'. apply H. by right.
Qed.

(** X17. A write to a cell that a rule does not reference leaves the
    result of the rule as it was; when no rule of the puzzle references
    the cell, the whole evaluation is unchanged. *)
Theorem setValue_unreferenced (p p' : Puzzle) (h h' : heap) (x y : nat) (v : value)
    (cell : loc) :
  cellAt p x y = Some cell →
  setValue p x y v h = Ok (p', h') →
  (∀ r, cell ∉ referenced r → check h' r = check h r)
  ∧ ((∀ r, r ∈ rules p → cell ∉ referenced r) →
     Puzzle_check p' h' = Puzzle_check p h).
Proof.
  intros Hc Hset. rewrite setValue_cellAt, Hc in Hset. injection Hset as <- <-.
  assert (∀ r, cell ∉ referenced r → check (<[cell := v]> h) r = check h r) as Hr.
  { intros r Hn. apply check_agree. intros l Hl. apply read_insert_ne.
    by intros ->. }
  split; [done|]. intros Hall. unfold Puzzle_check. apply every_M_agree.
  intros r Hin. by apply Hr, Hall.
Qed.

Lemma setValue_unreferenced_witness :
  check (<[2 := number 5]> (new_Puzzle 2 []).2) (RuleRegion [0; 1])
  = check (new_Puzzle 2 []).2 (RuleRegion [0; 1]).
Proof.
  apply (proj1 (setValue_unreferenced (new_Puzzle 2 []).1 (new_Puzzle 2 []).1
                  (new_Puzzle 2 []).2 (<[2 := number 5]> (new_Puzzle 2 []).2)
                  0 1 (number 5) 2 eq_refl eq_refl) (RuleRegion [0; 1])).
  intros Hin. apply list_elem_of_In in Hin. simpl in Hin.
  destruct Hin as [Hin|[Hin|[]]]; discriminate Hin.
Defined.

(** ** Reading cells *)

Lemma getValues_from_spec (p : Puzzle) (h : heap) (indices : list nat) :
  ∀ y,
    (∀ vals, getValues_from p h y indices = Ok vals →
       length vals = length indices
       ∧ ∀ i x, indices !! i = Some x → vals !! i = getValue p x (y + i) h)
    ∧ ((∀ i x, indices !! i = Some x → is_Some (cellAt p x (y + i))) →
       ∃ vals, getValues_from p h y indices = Ok vals)
    ∧ (∀ i x, indices !! i = Some x → cellAt p x (y + i) = None →
       getValues_from p h y indices = Throw TypeError).
Proof.
  induction indices as [|x0 indices IH]; intros y.
  - split_and!; [by intros vals [= <-] | by eexists | done].
  - destruct (IH (S y)) as (IH1 & IH2 & IH3). simpl.
    assert (Hc : cellAt p x0 y = grid p !! y ≫= (.!! x0)) by done.
    destruct (grid p !! y) as [row|] eqn:Hrow; simpl in Hc.
    2:{ split_and!; [done| |done].
        intros H. destruct (H 0 x0 eq_refl) as [c Hc'].
        rewrite Nat.add_0_r in Hc'. congruence. }
    destruct (row !! x0) as [cell|] eqn:Hcell.
    2:{ split_and!; [done| |done].
        intros H. destruct (H 0 x0 eq_refl) as [c Hc'].
        rewrite Nat.add_0_r in Hc'. congruence. }
    split_and!.
    + intros vals Hv.
      destruct (getValues_from p h (S y) indices) as [vs|] eqn:Hvs; [|done].
      injection Hv as <-. destruct (IH1 vs eq_refl) as [Hl Hi].
      split; [simpl; by rewrite Hl|]. intros [|i] x Hx; simpl in *.
      * injection Hx as <-. unfold getValue. by rewrite Nat.add_0_r, Hc.
      * rewrite (Hi i x Hx). do 2 f_equal. lia.
    + intros H. destruct IH2 as [vs ->]; [|by eexists].
      intros i x Hx. replace (S y + i) with (y + S i) by lia. by apply (H (S i)).
    + intros [|i] x Hx Hn; simpl in Hx.
      * injection Hx as <-. rewrite Nat.add_0_r in Hn. congruence.
      * rewrite (IH3 i x Hx); [done|]. by replace (S y + i) with (y + S i) by lia.
Qed.

(** X18. [getValues] reads its [i]-th argument as a column and [i]
    itself as the row: it returns the values at the coordinates
    [(indices[i], i)].  It throws when one of these lies outside the
    grid, so a puzzle built by the constructor never answers more
    arguments than it has rows. *)
Theorem getValues_positions (p : Puzzle) (indices : list nat) (h : heap) :
  (∀ vals, getValues p indices h = Ok vals →
     length vals = length indices
     ∧ ∀ i x, indices !! i = Some x → vals !! i = getValue p x i h)
  ∧ ((∀ i x, indices !! i = Some x → is_Some (cellAt p x i)) →
     ∃ vals, getValues p indices h = Ok vals)
  ∧ (∀ i x, indices !! i = Some x → cellAt p x i = None →
     getValues p indices h = Throw TypeError)
  ∧ (reachable p h → size p < length indices →
     getValues p indices h = Throw TypeError).
Proof.
  destruct (getValues_from_spec p h indices 0) as (H1 & H2 & H3).
  split_and!; try done.
  intros (Hlen & _)%reachable_grid_ok Hsz.
  destruct (lookup_lt_is_Some_2 indices (size p) Hsz) as [x Hx].
  apply (H3 (size p) x Hx). unfold cellAt. simpl.
  by rewrite (lookup_ge_None_2 (grid p) (size p)) by lia.
Qed.

Lemma getValues_positions_witness :
  getValues (new_Puzzle 2 []).1 [0; 1; 0] (new_Puzzle 2 []).2 = Throw TypeError.
Proof.
  apply (proj2 (proj2 (proj2 (getValues_positions (new_Puzzle 2 []).1 [0; 1; 0]
                                (new_Puzzle 2 []).2)))).
  - apply (reach_new 2 []).
  - simpl. lia.
Defined.

(** ** Populating the grid *)

Lemma populate_row_spec (p : Puzzle) (y : nat) (solution : list (list value))
    (srow : list value) (xs : list nat) :
  y < size p → solution !! y = Some srow → Forall (λ x, x < size p) xs →
  ∀ h, reachable p h →
    ∃ h', populate_row p y xs solution h = Ok h'
          ∧ reachable p h'
          ∧ length h' = length h
          ∧ ∀ l, (∃ x, x ∈ xs ∧ cellAt p x y = Some l
                       ∧ read h' l = default undefined (srow !! x))
                 ∨ ((∀ x, x ∈ xs → cellAt p x y ≠ Some l) ∧ read h' l = read h l).
Proof.
  intros Hy Hrow. induction 1 as [|x xs Hx _ IH]; intros h Hreach.
  - exists h. split_and!; try done. intros l. right. split; [|done].
    intros x Hin. by apply elem_of_nil in Hin.
  - simpl. rewrite Hrow, setValue_cellAt.
    destruct (cellAt_in_range p h x y (reachable_grid_ok _ _ Hreach) Hx Hy)
      as (cell & Hcell & Hlt).
    rewrite Hcell.
    assert (reachable p (<[cell := default undefined (srow !! x)]> h)) as Hreach1
      by by apply reach_write.
    destruct (IH _ Hreach1) as (h' & -> & Hreach' & Hlen & Hvals).
    exists h'. split_and!; [done|done|by rewrite Hlen, length_insert|].
    intros l. destruct (Hvals l) as [(x' & Hin & Hc & Hv)|[Hnot Hv]].
    + left. exists x'. split_and!; [by right|done|done].
    + destruct (decide (l = cell)) as [->|Hne].
      * left. exists x. split_and!; [by left|done|].
        by rewrite Hv, read_insert_eq.
      * right. split; [|by rewrite Hv, read_insert_ne].
        intros x' [->|Hin]%elem_of_cons; [congruence | by apply Hnot].
Qed.

Lemma populate_rows_spec (p : Puzzle) (solution : list (list value)) (ys : list nat) :
  Forall (λ y, y < size p ∧ y < length solution) ys →
  ∀ h, reachable p h →
    ∃ h', populate_rows p ys solution h = Ok h'
          ∧ reachable p h'
          ∧ length h' = length h
          ∧ ∀ l, (∃ x y, cellAt p x y = Some l ∧ read h' l = solution_at solution x y)
                 ∨ ((∀ x y, y ∈ ys → x < size p → cellAt p x y ≠ Some l)
                    ∧ read h' l = read h l).
Proof.
  induction 1 as [|y ys [Hy Hsol] _ IH]; intros h Hreach.
  - exists h. split_and!; try done. intros l. right. split; [|done].
    intros x y Hin. by apply elem_of_nil in Hin.
  - simpl. destruct (lookup_lt_is_Some_2 solution y Hsol) as [srow Hrow].
    destruct (populate_row_spec p y solution srow (seq 0 (size p)) Hy Hrow) with h
      as (h1 & -> & Hreach1 & Hlen1 & Hvals1); [|done|].
    { apply Forall_forall. intros x Hx%elem_of_seq. lia. }
    destruct (IH _ Hreach1) as (h' & -> & Hreach' & Hlen & Hvals).
    exists h'. split_and!; [done|done|lia|].
    intros l. destruct (Hvals l) as [Hleft|[Hnot Hv]]; [by left|].
    destruct (Hvals1 l) as [(x & Hin & Hc & Hv1)|[Hnot1 Hv1]].
    + left. exists x, y. split; [done|]. unfold solution_at.
      by rewrite Hv, Hv1, Hrow.
    + right. split; [|by rewrite Hv, Hv1].
      intros x y' [->|Hin]%elem_of_cons Hx; [|by apply Hnot].
      apply Hnot1, elem_of_seq. lia.
Qed.

Lemma populate_rows_app (p : Puzzle) (solution : list (list value))
    (ys1 ys2 : list nat) (h : heap) :
  populate_rows p (ys1 ++ ys2) solution h
  = match populate_rows p ys1 solution h with
    | Ok h1 => populate_rows p ys2 solution h1
    | Throw e => Throw e
    end.
Proof.
  revert h; induction ys1 as [|y ys1 IH]; intros h; simpl; [done|].
  by destruct (populate_row p y (seq 0 (size p)) solution h).
Qed.

Lemma populate_spec (p : Puzzle) (solution : list (list value)) (h : heap) :
  reachable p h → size p ≤ length solution →
  ∃ h', populate p solution h = Ok h'
        ∧ reachable p h'
        ∧ length h' = length h
        ∧ (∀ x y, x < size p → y < size p →
             getValue p x y h' = Some (solution_at solution x y))
        ∧ (∀ l, (∀ x y, cellAt p x y ≠ Some l) → read h' l = read h l).
Proof.
  intros Hreach Hsol. unfold populate.
  destruct (populate_rows_spec p solution (seq 0 (size p))) with h
    as (h' & Hpop & Hreach' & Hlen & Hvals); [|done|].
  { apply Forall_forall. intros y Hy%elem_of_seq. lia. }
  exists h'. split_and!; try done.
  - intros x y Hx Hy.
    destruct (cellAt_in_range p h x y (reachable_grid_ok _ _ Hreach) Hx Hy)
      as (cell & Hcell & _).
    unfold getValue. rewrite Hcell. simpl. f_equal.
    destruct (Hvals cell) as [(x' & y' & Hc & Hv)|[Hnot _]].
    + pose proof (cellAt_distinct _ _ _ _ _ _ _
                    (reachable_grid_ok _ _ Hreach) Hcell Hc) as [= <- <-].
      exact Hv.
    + destruct (Hnot x y); [apply elem_of_seq; lia|done|done].
  - intros l Hl. destruct (Hvals l) as [(x & y & Hc & _)|[_ Hv]]; [|done].
    by destruct (Hl x y).
Qed.

(** X20. The population loop of the driver, run on a puzzle built by
    the constructor with a solution that has a row for every row of the
    grid, does not throw; afterwards every coordinate of the grid holds
    [solution[y][x]] ([undefined] where the solution's row is too
    short), and the cells outside the grid hold what they held.  A
    solution with too few rows makes it throw. *)
Theorem populate_fills_grid (p : Puzzle) (solution : list (list value)) (h : heap) :
  reachable p h →
  (size p ≤ length solution →
   ∃ h', populate p solution h = Ok h'
         ∧ reachable p h'
         ∧ (∀ x y, x < size p → y < size p →
              getValue p x y h' = Some (solution_at solution x y))
         ∧ (∀ l, (∀ x y, cellAt p x y ≠ Some l) → read h' l = read h l))
  ∧ (length solution < size p → populate p solution h = Throw TypeError).
Proof.
  intros Hreach. split.
  - intros Hsol.
    destruct (populate_spec p solution h Hreach Hsol) as (h' & ? & ? & ? & ? & ?).
    by exists h'.
  - intros Hshort. unfold populate.
    replace (size p) with (length solution + S (size p - S (length solution)))
      at 1 by lia.
    rewrite seq_app, populate_rows_app. simpl seq.
    destruct (populate_rows_spec p solution (seq 0 (length solution))) with h
      as (h1 & -> & _); [|done|].
    { apply Forall_forall. intros y Hy%elem_of_seq. lia. }
    simpl. destruct (size p) as [|n] eqn:Hn; [lia|]. simpl.
    by rewrite (lookup_ge_None_2 solution (length solution)).
Qed.

Lemma populate_fills_grid_witness :
  ∃ h', populate (new_Puzzle 2 []).1 [[number 1; number 2]; [number 2; number 1]]
          (new_Puzzle 2 []).2 = Ok h'
        ∧ reachable (new_Puzzle 2 []).1 h'
        ∧ (∀ x y, x < size (new_Puzzle 2 []).1 → y < size (new_Puzzle 2 []).1 →
             getValue (new_Puzzle 2 []).1 x y h'
             = Some (solution_at [[number 1; number 2]; [number 2; number 1]] x y))
        ∧ (∀ l, (∀ x y, cellAt (new_Puzzle 2 []).1 x y ≠ Some l) →
             read h' l = read (new_Puzzle 2 []).2 l).
Proof.
  apply (proj1 (populate_fills_grid (new_Puzzle 2 [])
                  .1 [[number 1; number 2]; [number 2; number 1]]
                  (new_Puzzle 2 []).2 (reach_new 2 []))).
  simpl. lia.
Defined.

(** ** The driver's sudoku *)

Lemma RuleRegion_NoDup (h : heap) (cells : list loc) :
  check h (RuleRegion cells) = Ok true ↔ NoDup (map (read h) cells).
Proof.
  rewrite check_RuleRegion_eq, <- (checkUniques_NoDup h cells).
  destruct (checkUniques h cells); split; congruence.
Qed.

Lemma driver_loop_reachable (ys : list nat) :
  ∀ p p' h, reachable p h → driver_loop p ys = Ok p' →
            reachable p' h ∧ grid p' = grid p ∧ size p' = size p.
Proof.
  induction ys as [|y ys IH]; intros p p' h Hreach Hloop; simpl in Hloop.
  - by injection Hloop as <-.
  - destruct (driver_regions (grid p) (size p) y) as [rs|]; [|done].
    destruct (IH (addRules p rs) p' h) as (? & ? & ?); [by constructor|done|].
    done.
Qed.

Lemma new_Puzzle_cellAt (n : nat) (h0 : heap) (x y : nat) :
  x < n → y < n → cellAt (new_Puzzle n h0).1 x y = Some (length h0 + y * n + x).
Proof.
  intros Hx Hy. unfold new_Puzzle.
  destruct (new_grid_rows n n h0) as (_ & _ & Hrows).
  destruct (new_grid n n h0) as [g h]. unfold cellAt. simpl in *.
  rewrite (Hrows y Hy). simpl. by rewrite lookup_seq_lt.
Qed.

Lemma Forall_same_elements {A} (Q : A → Prop) (l1 l2 : list A) :
  Forall (λ x, x ∈ l2) l1 → Forall (λ x, x ∈ l1) l2 →
  (Forall Q l1 ↔ Forall Q l2).
Proof.
  rewrite !Forall_forall. intros H12 H21. split; intros H x Hx; auto.
Qed.

Lemma regions_check_iff (h : heap) (rs : list Rule) :
  Forall (λ r, r = RuleRegion (referenced r)) rs →
  (Forall (λ r, check h r = Ok true) rs
   ↔ Forall (λ cells : list loc, NoDup (read h <$> cells)) (referenced <$> rs)).
Proof.
  intros Hrs. rewrite Forall_fmap. induction Hrs as [|r rs Hr _ IH]; [done|].
  rewrite !Forall_cons, IH. simpl. rewrite Hr at 1.
  by rewrite RuleRegion_NoDup.
Qed.

Lemma lines_distinct_iff (h : heap) (lines : list (list (nat * nat))) :
  Forall (distinct_on (sudoku_value h)) lines
  ↔ Forall (λ cells : list loc, NoDup (read h <$> cells))
           ((λ line : list (nat * nat), (λ c : nat * nat, 9 * c.2 + c.1) <$> line)
              <$> lines).
Proof.
  rewrite Forall_fmap. apply Forall_iff. intros line.
  unfold distinct_on, sudoku_value. simpl. by rewrite <- list_fmap_compose.
Qed.

Lemma driver_sudoku_spec :
  ∃ p h, driver_sudoku = Ok (p, h)
         ∧ reachable p h
         ∧ size p = 9
         ∧ length (rules p) = 27
         ∧ (∀ x y h', x < 9 → y < 9 → getValue p x y h' = Some (sudoku_value h' x y))
         ∧ ∀ h', (Puzzle_check p h').2 = Ok true
                 ↔ Forall (distinct_on (sudoku_value h'))
                          (sudoku_rows ++ sudoku_cols ++ sudoku_boxes).
Proof.
  eexists _, _. split; [vm_compute; reflexivity|].
  split.
  { refine (proj1 (driver_loop_reachable (seq 0 9) (new_Puzzle 9 []).1 _ _
                     (reach_new 9 []) _)).
    vm_compute. reflexivity. }
  split_and!; [done|done| |].
  - intros x y h' Hx Hy. unfold getValue.
    change (cellAt _ x y) with (cellAt (new_Puzzle 9 []).1 x y).
    rewrite new_Puzzle_cellAt by done. simpl. unfold sudoku_value.
    do 2 f_equal. lia.
  - intros h'. unfold Puzzle_check. rewrite (proj2 (every_M_all _ _)).
    rewrite <- Forall_forall. cbn [rules].
    rewrite regions_check_iff by (apply (bool_decide_unpack _); by vm_compute).
    rewrite lines_distinct_iff.
    apply Forall_same_elements; apply (bool_decide_unpack _); by vm_compute.
Qed.

(** X19. The driver's loop over a new puzzle of size 9 throws nothing
    and registers 27 regions: the nine rows, the nine columns, and, by
    its index formula, the nine 3 by 3 boxes.  Whatever the cells hold,
    the puzzle then passes exactly when each of these 27 lines holds
    pairwise distinct values. *)
Theorem driver_sudoku_regions :
  ∃ p h, driver_sudoku = Ok (p, h)
         ∧ size p = 9
         ∧ length (rules p) = 27
         ∧ (∀ x y h', x < 9 → y < 9 → getValue p x y h' = Some (sudoku_value h' x y))
         ∧ ∀ h', (Puzzle_check p h').2 = Ok true
                 ↔ Forall (distinct_on (sudoku_value h'))
                          (sudoku_rows ++ sudoku_cols ++ sudoku_boxes).
Proof.
  destruct driver_sudoku_spec as (p & h & ? & ? & ? & ? & ? & ?).
  by exists p, h.
Qed.

Lemma sudoku_lines_in_grid :
  Forall (Forall (λ c : nat * nat, c.1 < 9 ∧ c.2 < 9))
         (sudoku_rows ++ sudoku_cols ++ sudoku_boxes).
Proof. apply (bool_decide_unpack _). by vm_compute. Qed.

(** X21. End to end: the driver's puzzle, populated from a solution
    with at least nine rows, passes exactly when every row, every column
    and every 3 by 3 box of the solution holds pairwise distinct
    values. *)
Theorem driver_sudoku_end_to_end (solution : list (list value)) :
  9 ≤ length solution →
  ∃ p h h', driver_sudoku = Ok (p, h)
            ∧ populate p solution h = Ok h'
            ∧ ((Puzzle_check p h').2 = Ok true
               ↔ Forall (distinct_on (solution_at solution))
                        (sudoku_rows ++ sudoku_cols ++ sudoku_boxes)).
Proof.
  intros Hsol.
  destruct driver_sudoku_spec as (p & h & Hdrv & Hreach & Hsize & _ & Hval & Hcheck).
  destruct (populate_spec p solution h Hreach) as (h' & Hpop & _ & _ & Hfill & _);
    [lia|].
  exists p, h, h'. split_and!; [done|done|]. rewrite Hcheck. clear Hcheck.
  pose proof sudoku_lines_in_grid as Hin. revert Hin.
  generalize (sudoku_rows ++ sudoku_cols ++ sudoku_boxes). intros all_lines Hin.
  induction Hin as [|line lines Hline _ IH]; [done|].
  rewrite !Forall_cons, IH.
  assert (distinct_on (sudoku_value h') line
          ↔ distinct_on (solution_at solution) line) as ->; [|done].
  unfold distinct_on.
  assert ((λ c : nat * nat, sudoku_value h' c.1 c.2) <$> line
          = (λ c : nat * nat, solution_at solution c.1 c.2) <$> line) as ->; [|done].
  apply list_fmap_ext. intros i [x y] Hc. simpl.
  pose proof (proj1 (Forall_lookup _ _) Hline i (x, y) Hc) as [Hx Hy]. simpl in *.
  pose proof (Hval x y h' Hx Hy) as H1.
  pose proof (Hfill x y ltac:(lia) ltac:(lia)) as H2. congruence.
Qed.

Lemma driver_sudoku_end_to_end_witness :
  ∃ p h h', driver_sudoku = Ok (p, h)
            ∧ populate p sample_solution h = Ok h'
            ∧ ((Puzzle_check p h').2 = Ok true
               ↔ Forall (distinct_on (solution_at sample_solution))
                        (sudoku_rows ++ sudoku_cols ++ sudoku_boxes)).
Proof.
  apply (driver_sudoku_end_to_end sample_solution). simpl. lia.
Defined.

(** * The first draft *)

Lemma Draft_values_acc (solution : list (list value)) (cells : list (nat * nat)) :
  ∀ acc,
    Draft.forEachCell solution cells (λ vals cell, vals ++ [cell]) acc
    = match Draft.values solution cells with
      | Ok vs => Ok (acc ++ vs)
      | Throw e => Throw e
      end.
Proof.
  unfold Draft.values. induction cells as [|[x y] cells IH]; intros acc; simpl.
  - by rewrite app_nil_r.
  - destruct (solution !! y) as [row|]; [|done].
    rewrite (IH (acc ++ _)), (IH [_]).
    destruct (Draft.forEachCell solution cells _ []); [|done].
    by rewrite <- app_assoc.
Qed.

Lemma Draft_values_cons (solution : list (list value)) (x y : nat)
    (cells : list (nat * nat)) :
  Draft.values solution ((x, y) :: cells)
  = match solution !! y with
    | None => Throw TypeError
    | Some row =>
        match Draft.values solution cells with
        | Ok vs => Ok (default undefined (row !! x) :: vs)
        | Throw e => Throw e
        end
    end.
Proof.
  unfold Draft.values at 1. simpl. destruct (solution !! y) as [row|]; [|done].
  by rewrite Draft_values_acc.
Qed.

Lemma Draft_forEachCell_values {S} (solution : list (list value))
    (cells : list (nat * nat)) (callback : S → value → S) :
  ∀ s,
    Draft.forEachCell solution cells callback s
    = match Draft.values solution cells with
      | Ok vs => Ok (fold_left callback vs s)
      | Throw e => Throw e
      end.
Proof.
  induction cells as [|[x y] cells IH]; intros s; [done|].
  rewrite Draft_values_cons. simpl.
  destruct (solution !! y) as [row|]; [|done]. rewrite IH.
  by destruct (Draft.values solution cells).
Qed.

Lemma Draft_values_length (solution : list (list value)) (cells : list (nat * nat))
    (vs : list value) :
  Draft.values solution cells = Ok vs → length vs = length cells.
Proof.
  revert vs; induction cells as [|[x y] cells IH]; intros vs.
  - by intros [= <-].
  - rewrite Draft_values_cons. destruct (solution !! y) as [row|]; [|done].
    destruct (Draft.values solution cells) as [vs'|]; [|done].
    intros [= <-]. simpl. by rewrite (IH vs').
Qed.

Lemma Draft_values_in_range (solution : list (list value)) (cells : list (nat * nat)) :
  Forall (λ c, c.2 < length solution) cells →
  ∃ vs, Draft.values solution cells = Ok vs.
Proof.
  induction 1 as [|[x y] cells Hy _ [vs IH]]; [by exists []|].
  rewrite Draft_values_cons, IH. simpl in Hy.
  destruct (lookup_lt_is_Some_2 solution y Hy) as [row ->]. by eexists.
Qed.

Lemma Draft_values_out_of_range (solution : list (list value))
    (cells : list (nat * nat)) :
  Exists (λ c, length solution ≤ c.2) cells →
  Draft.values solution cells = Throw TypeError.
Proof.
  induction 1 as [[x y] cells Hy|[x y] cells _ IH]; rewrite Draft_values_cons.
  - by rewrite (lookup_ge_None_2 solution y).
  - rewrite IH. by destruct (solution !! y).
Qed.

Lemma Draft_Set_add_fold (vs : list value) :
  ∀ acc, NoDup acc →
    NoDup (fold_left Draft.Set_add vs acc)
    ∧ ∀ x, x ∈ fold_left Draft.Set_add vs acc ↔ x ∈ acc ∨ x ∈ vs.
Proof.
  induction vs as [|v vs IH]; intros acc Hacc; simpl.
  - split; [done|]. intros x. rewrite elem_of_nil. tauto.
  - unfold Draft.Set_add at 2 4. destruct (decide (v ∈ acc)) as [Hin|Hin].
    + destruct (IH acc Hacc) as [Hnd Hel]. split; [done|].
      intros x. rewrite Hel, elem_of_cons. split; [tauto|].
      intros [?|[->|?]]; auto.
    + destruct (IH (acc ++ [v])) as [Hnd Hel].
      { apply NoDup_app. split_and!; [done| |apply NoDup_singleton].
        intros x Hx ->%list_elem_of_singleton. done. }
      split; [done|]. intros x.
      rewrite Hel, elem_of_app, list_elem_of_singleton, elem_of_cons. tauto.
Qed.

Lemma Draft_Set_size (vs : list value) :
  length (fold_left Draft.Set_add vs []) = Set_size vs.
Proof.
  destruct (Draft_Set_add_fold vs [] (NoDup_nil_2)) as [Hnd Hel].
  unfold Set_size. apply Permutation_length, NoDup_Permutation.
  - done.
  - apply NoDup_remove_dups.
  - intros x. rewrite Hel, elem_of_remove_dups, elem_of_nil. tauto.
Qed.

(** X22. On the rules both versions share unchanged, the first draft
    and the latest version agree: when the coordinates of a draft rule
    read the values that the cells of a rule hold, a region, an odd, an
    even and a killer cage give the same result in both. *)
Theorem Draft_rules_agree (solution argument : list (list value))
    (coords : list (nat * nat)) (h : heap) (cells : list loc) (s : Z) :
  Draft.values solution coords = Ok (cellValues h cells) →
  Draft.Rule_check solution argument (Draft.RuleRegion coords)
  = check h (RuleRegion cells)
  ∧ Draft.Rule_check solution argument (Draft.RuleOdd coords) = check h (RuleOdd cells)
  ∧ Draft.Rule_check solution argument (Draft.RuleEven coords) = check h (RuleEven cells)
  ∧ Draft.Rule_check solution argument (Draft.RuleKillerCage coords s)
    = check h (RuleKillerCage cells s).
Proof.
  intros Hv.
  assert (length coords = length cells) as Hlen.
  { rewrite <- (Draft_values_length _ _ _ Hv). unfold cellValues.
    by rewrite length_map. }
  assert (Hu : ∀ r, Draft.cells r = coords →
            Draft.checkUniques solution r = Ok (checkUniques h cells)).
  { intros r Hr. unfold Draft.checkUniques, Draft.cellCount.
    rewrite Hr, Draft_forEachCell_values, Hv, Draft_Set_size, Hlen. done. }
  assert (Hs : Draft.forEachCell solution coords
                 (λ sum_ cell, add sum_ cell) (number 0)
               = Ok (total (cellValues h cells))).
  { by rewrite Draft_forEachCell_values, Hv. }
  split_and!.
  - rewrite check_RuleRegion_eq. unfold Draft.Rule_check, Draft.RuleBase_check.
    simpl. rewrite Hu by done. by destruct (checkUniques h cells).
  - unfold check. rewrite check_sum_only by done.
    unfold Draft.Rule_check, Draft.RuleBase_check, Draft.checkSum. simpl.
    rewrite Hs. unfold checkSum. simpl.
    by destruct (strict_eq _ _).
  - unfold check. rewrite check_sum_only by done.
    unfold Draft.Rule_check, Draft.RuleBase_check, Draft.checkSum. simpl.
    rewrite Hs. unfold checkSum. simpl.
    by destruct (strict_eq _ _).
  - unfold check, RuleBase_check, checkSum.
    unfold Draft.Rule_check, Draft.RuleBase_check, Draft.checkSum. simpl.
    rewrite Hu, Hs by done.
    destruct (checkUniques h cells); simpl; [|done].
    by destruct (strict_eq _ _).
Qed.

Lemma Draft_rules_agree_witness :
  Draft.Rule_check [[number 1; number 2]] [] (Draft.RuleRegion [(0, 0); (1, 0)])
  = check [number 1; number 2] (RuleRegion [0; 1])
  ∧ Draft.Rule_check [[number 1; number 2]] [] (Draft.RuleOdd [(0, 0); (1, 0)])
    = check [number 1; number 2] (RuleOdd [0; 1])
  ∧ Draft.Rule_check [[number 1; number 2]] [] (Draft.RuleEven [(0, 0); (1, 0)])
    = check [number 1; number 2] (RuleEven [0; 1])
  ∧ Draft.Rule_check [[number 1; number 2]] [] (Draft.RuleKillerCage [(0, 0); (1, 0)] 3)
    = check [number 1; number 2] (RuleKillerCage [0; 1] 3).
Proof.
  apply (Draft_rules_agree [[number 1; number 2]] [] [(0, 0); (1, 0)]
           [number 1; number 2] [0; 1] 3).
  reflexivity.
Defined.

Lemma Draft_every_chain (full pre : list value) (p : value) (vs : list value) :
  full = pre ++ p :: vs →
  every_from (λ value i,
                strict_eq value (number 0) || lt (get full (Z.of_nat i - 1)) value)
             (S (length pre)) vs = true
  ↔ Draft.chain p vs.
Proof.
  revert pre p; induction vs as [|v vs IH]; intros pre p Hfull;
    cbn [every_from Draft.chain]; [done|].
  assert (get full (Z.of_nat (S (length pre)) - 1) = p) as ->.
  { replace (Z.of_nat (S (length pre)) - 1)%Z with (Z.of_nat (length pre)) by lia.
    apply get_lookup. rewrite Hfull. by apply list_lookup_middle. }
  specialize (IH (pre ++ [p]) v). rewrite length_app, Nat.add_1_r in IH.
  rewrite <- IH by (by rewrite Hfull, <- app_assoc).
  destruct (strict_eq v (number 0) || lt p v) eqn:E.
  - apply orb_true_iff in E. rewrite strict_eq_number in E. tauto.
  - apply orb_false_iff in E as [E1 E2]. split; [done|].
    intros [[->|H] _]; [|congruence].
    rewrite (proj2 (strict_eq_number _ _) eq_refl) in E1. done.
Qed.

Lemma Draft_chain_zero (p : value) (vs1 vs2 : list value) :
  Draft.chain p (vs1 ++ number 0 :: vs2)
  ↔ Draft.chain p vs1 ∧ Draft.chain (number 0) vs2.
Proof.
  revert p; induction vs1 as [|v vs1 IH]; intros p; simpl.
  - tauto.
  - rewrite IH. tauto.
Qed.

Lemma increasing_cons (a b : value) (vals : list value) :
  increasing (a :: b :: vals) ↔ lt a b = true ∧ increasing (b :: vals).
Proof.
  unfold increasing. split.
  - intros H. split; [by apply (H 0)|]. intros i x y Hx Hy. by apply (H (S i)).
  - intros [Hab H] [|i] x y Hx Hy; simpl in *.
    + by injection Hx as <-; injection Hy as <-.
    + by apply (H i).
Qed.

Lemma Draft_chain_positive (zs : list Z) :
  Forall (λ z, 0 < z)%Z zs →
  ∀ p : Z,
    Draft.chain (number p) (number <$> zs)
    ↔ match zs with [] => True | z :: _ => (p < z)%Z end
      ∧ increasing (number <$> zs).
Proof.
  induction 1 as [|z zs Hz _ IH]; intros p.
  - split; [|done]. intros _. split; [done|]. intros i a b Ha. done.
  - change (Draft.chain (number p) (number <$> z :: zs))
      with ((number z = number 0 ∨ lt (number p) (number z) = true)
            ∧ Draft.chain (number z) (number <$> zs)).
    rewrite (IH z), lt_number. destruct zs as [|z' zs].
    + assert (increasing (number <$> [z])) by (intros [|i] a b Ha Hb; done).
      assert (increasing (number <$> [])) by (intros i a b Ha; done).
      split; [intros [[[= ->]|?] _]; [lia|done] | tauto].
    + change (number <$> z :: z' :: zs)
        with (number z :: number z' :: (number <$> zs)).
      rewrite (increasing_cons (number z) (number z')), lt_number.
      split; [intros [[[= ->]|?] ?]; [lia|tauto] | tauto].
Qed.

(** X23. The thermometer of the first draft puts a [0] before the
    values and asks each value to be [0] or greater than the one before
    it.  On positive integers that is the strictly increasing path of
    the latest version.  A [0] on the path is always accepted and starts
    the comparison afresh: the path passes when the part before the [0]
    and the part after it pass on their own. *)
Theorem Draft_thermometer_check (solution argument : list (list value))
    (coords : list (nat * nat)) :
  (∀ vs, Draft.values solution coords = Ok vs →
     (Draft.Rule_check solution argument (Draft.RuleThermometer coords) = Ok true
      ↔ Draft.chain (number 0) vs))
  ∧ (∀ zs, Draft.values solution coords = Ok (number <$> zs) →
       Forall (λ z, 0 < z)%Z zs →
       (Draft.Rule_check solution argument (Draft.RuleThermometer coords) = Ok true
        ↔ increasing (number <$> zs)))
  ∧ (∀ vs1 vs2, Draft.values solution coords = Ok (vs1 ++ number 0 :: vs2) →
       (Draft.Rule_check solution argument (Draft.RuleThermometer coords) = Ok true
        ↔ Draft.chain (number 0) vs1 ∧ Draft.chain (number 0) vs2)).
Proof.
  assert (Hchain : ∀ vs, Draft.values solution coords = Ok vs →
     (Draft.Rule_check solution argument (Draft.RuleThermometer coords) = Ok true
      ↔ Draft.chain (number 0) vs)).
  { intros vs Hv. unfold Draft.Rule_check, Draft.RuleThermometer_check. simpl.
    rewrite Draft_values_acc, Hv. unfold every. simpl.
    rewrite <- (Draft_every_chain (number 0 :: vs) [] (number 0) vs eq_refl).
    simpl. destruct (every_from _ 1 vs); split; congruence. }
  split_and!; [done| |].
  - intros zs Hv Hpos. rewrite (Hchain _ Hv), (Draft_chain_positive zs Hpos 0).
    split; [tauto|]. intros H. split; [|done].
    destruct Hpos; [done|lia].
  - intros vs1 vs2 Hv. by rewrite (Hchain _ Hv), Draft_chain_zero.
Qed.

Lemma Draft_thermometer_check_witness :
  Draft.Rule_check [[number 5; number 0; number 1]] []
    (Draft.RuleThermometer [(0, 0); (1, 0); (2, 0)]) = Ok true
  ↔ Draft.chain (number 0) [number 5] ∧ Draft.chain (number 0) [number 1].
Proof.
  apply (proj2 (proj2 (Draft_thermometer_check [[number 5; number 0; number 1]] []
                         [(0, 0); (1, 0); (2, 0)])) [number 5] [number 1]).
  reflexivity.
Defined.

Lemma Draft_Rule_check_cases (solution argument : list (list value)) (r : Draft.Rule) :
  (Forall (λ c, c.2 < length solution) (Draft.cells r) →
   ∃ b, Draft.Rule_check solution argument r = Ok b)
  ∧ (Exists (λ c, length solution ≤ c.2) (Draft.cells r) →
     (∀ coords, r ≠ Draft.RulePalindrome coords) →
     Draft.Rule_check solution argument r = Throw TypeError).
Proof.
  split.
  - intros [vs Hv]%Draft_values_in_range.
    destruct r; simpl in Hv;
      unfold Draft.Rule_check, Draft.RuleBase_check, Draft.RuleThermometer_check,
        Draft.checkUniques, Draft.checkSum; simpl;
      rewrite ?Draft_forEachCell_values, ?Draft_values_acc, ?Hv;
      repeat match goal with
             | |- context [if ?c then _ else _] => destruct c
             | |- context [match (if ?c then _ else _) with _ => _ end] => destruct c
             end; by eexists.
  - intros Hv%Draft_values_out_of_range Hnp.
    destruct r; simpl in Hv;
      unfold Draft.Rule_check, Draft.RuleBase_check, Draft.RuleThermometer_check,
        Draft.checkUniques, Draft.checkSum; simpl;
      rewrite ?Draft_forEachCell_values, ?Draft_values_acc, ?Hv; try done.
    by destruct (Hnp cells).
Qed.

(** X24. In the first draft a rule reads [solution[y][x]] for each of
    its coordinates: when some row [y] lies outside the solution, the
    check of every rule but the palindrome throws; when all rows exist,
    it returns a Boolean, and a column outside its row is read as
    [undefined].  The palindrome reads nothing and always passes. *)
Theorem Draft_Rule_check_reads (solution argument : list (list value)) (r : Draft.Rule) :
  (Forall (λ c, c.2 < length solution) (Draft.cells r) →
   ∃ b, Draft.Rule_check solution argument r = Ok b)
  ∧ (Exists (λ c, length solution ≤ c.2) (Draft.cells r) →
     (∀ coords, r ≠ Draft.RulePalindrome coords) →
     Draft.Rule_check solution argument r = Throw TypeError)
  ∧ (∀ coords, Draft.Rule_check solution argument (Draft.RulePalindrome coords) = Ok true)
  ∧ (∀ x y row, solution !! y = Some row → length row ≤ x →
       Draft.values solution [(x, y)] = Ok [undefined]).
Proof.
  destruct (Draft_Rule_check_cases solution argument r) as [H1 H2].
  split_and!; [done|done|done|].
  intros x y row Hrow Hx. rewrite Draft_values_cons, Hrow.
  by rewrite (lookup_ge_None_2 row x).
Qed.

Lemma Draft_Rule_check_reads_witness :
  Draft.Rule_check [[number 1]] [] (Draft.RuleRegion [(0, 0); (0, 1)])
  = Throw TypeError.
Proof.
  apply (proj1 (proj2 (Draft_Rule_check_reads [[number 1]] []
                         (Draft.RuleRegion [(0, 0); (0, 1)])))).
  - apply Exists_cons_tl, Exists_cons_hd. simpl. lia.
  - discriminate.
Defined.

(** X25. The [check] of the first draft returns [true] exactly when the
    check of every rule returns [true].  It returns a Boolean when every
    rule does, and the second argument it is given does not enter the
    result: the rules read the [solution] of the module. *)
Theorem Draft_check_conjunction (solution : list (list value))
    (rules : list Draft.Rule) (argument : list (list value)) :
  (Draft.check solution rules argument = Ok true
   ↔ ∀ r, r ∈ rules → Draft.Rule_check solution argument r = Ok true)
  ∧ ((∀ r, r ∈ rules → Forall (λ c, c.2 < length solution) (Draft.cells r)) →
     ∃ b, Draft.check solution rules argument = Ok b)
  ∧ (∀ argument', Draft.check solution rules argument'
                  = Draft.check solution rules argument).
Proof.
  unfold Draft.check. split_and!.
  - induction rules as [|r rules IH]; simpl.
    + split; [|done]. intros _ r Hr. by apply elem_of_nil in Hr.
    + destruct (Draft.Rule_check solution argument r) as [[]|e] eqn:Hr.
      * rewrite IH. split.
        -- intros H r' [->|Hin]%elem_of_cons; auto.
        -- intros H r' Hin. apply H. by right.
      * split; [done|]. intros H. specialize (H r (list_elem_of_here _ _)).
        congruence.
      * split; [done|]. intros H. specialize (H r (list_elem_of_here _ _)).
        congruence.
  - induction rules as [|r rules IH]; intros Hall; simpl; [by eexists|].
    destruct (proj1 (Draft_Rule_check_cases solution argument r)) as [[] ->].
    + apply Hall. by left.
    + apply IH. intros r' Hr'. apply Hall. by right.
    + by eexists.
  - done.
Qed.

Lemma Draft_check_conjunction_witness :
  ∃ b, Draft.check [[number 1; number 2]]
         [Draft.RuleRegion [(0, 0); (1, 0)]; Draft.RuleOdd [(0, 0)]] [] = Ok b.
Proof.
  apply (proj1 (proj2 (Draft_check_conjunction [[number 1; number 2]]
                         [Draft.RuleRegion [(0, 0); (1, 0)]; Draft.RuleOdd [(0, 0)]]
                         []))).
  intros r Hr. apply list_elem_of_In in Hr. simpl in Hr.
  destruct Hr as [<-|[<-|[]]]; simpl; repeat constructor.
Defined.
